(** * Omnidata multi-task training loop (train_multi_task.py)

    A shallow embedding of the pure parts of [train_multi_task.py]: the four
    dataset-classification predicates, the valid-mask construction, the
    label preparation and loss blending of [shared_step], the curation loop
    [select_val_samples_for_datasets] and the skip logic of
    [log_validation_example_images].

    Conventions.
    - A tensor is a shape together with an indexing function.
    - Float tensors hold rationals ([Q]): the properties below only depend on
      comparisons, [max], [1 - x] and the blend [10 * a + b], never on
      rounding.  Label tensors hold 64-bit integers, as the cross entropy of
      the source requires, with the wrap-around written out.
    - Calls into other modules (the network, [masked_l1_loss], the per-pixel
      negative log-likelihood, the renderer, [REPLICA_BUILDINGS]) are
      parameters of the sections that use them. *)

From Stdlib Require Import ZArith QArith Qminmax Qabs Lqa Ascii String DecimalString.
From stdpp Require Import gmap strings list fin_maps.

(** ** Python string operations used by the predicates *)

Module Py.

(** [c in s] for a one-character needle. *)
Fixpoint contains (c : ascii) (s : string) : bool :=
  match s with
  | EmptyString => false
  | String a s' => if Ascii.eqb a c then true else contains c s'
  end.

(** [s.startswith(p)]. *)
Fixpoint startswith (p s : string) : bool :=
  match p, s with
  | EmptyString, _ => true
  | String _ _, EmptyString => false
  | String a p', String b s' => if Ascii.eqb a b then startswith p' s' else false
  end.

(** [s.split(sep)] for a one-character separator: never the empty list. *)
Fixpoint split (sep : ascii) (s : string) : list string :=
  match s with
  | EmptyString => [EmptyString]
  | String a s' =>
      if Ascii.eqb a sep then EmptyString :: split sep s'
      else match split sep s' with
           | [] => [String a EmptyString]
           | w :: ws => String a w :: ws
           end
  end.

(** [x in l] on a list of strings. *)
Definition mem (x : string) (l : list string) : bool := bool_decide (x ∈ l).

(** [l[0]]; [split] never returns an empty list, so the default is unused. *)
Definition item0 (l : list string) : string := hd EmptyString l.

End Py.

(** ** Dataset classification by scene identifier *)

Definition building_in_gso (REPLICA_BUILDINGS : list string) (building : string) : bool :=
  Py.contains "-"%char building
  && Py.mem (Py.item0 (Py.split "-"%char building)) REPLICA_BUILDINGS.

Definition building_in_replica (REPLICA_BUILDINGS : list string) (building : string) : bool :=
  Py.mem building REPLICA_BUILDINGS.

Definition building_in_hypersim (building : string) : bool :=
  Py.startswith "ai_" building.

Definition building_in_taskonomy (REPLICA_BUILDINGS : list string) (building : string) : bool :=
  negb (Py.mem building REPLICA_BUILDINGS)
  && negb (Py.startswith "ai_" building)
  && negb (Py.contains "-"%char building).

(** How many of the four predicates an identifier satisfies. *)
Definition buckets_hit (REPLICA_BUILDINGS : list string) (building : string) : nat :=
  Nat.b2n (building_in_gso REPLICA_BUILDINGS building)
  + Nat.b2n (building_in_replica REPLICA_BUILDINGS building)
  + Nat.b2n (building_in_hypersim building)
  + Nat.b2n (building_in_taskonomy REPLICA_BUILDINGS building).

(** Scene names in the style of the Replica release, used as a sample value
    of [REPLICA_BUILDINGS] in the examples. *)
Definition sample_replica_buildings : list string :=
  ["apartment_0"; "frl_apartment_0"; "hotel_0"; "office_0"; "room_0"].

(** No Replica name looks like a GSO or a Hypersim identifier. *)
Definition plain_names (REPLICA_BUILDINGS : list string) : bool :=
  forallb (fun r => negb (Py.contains "-"%char r) && negb (Py.startswith "ai_" r))
          REPLICA_BUILDINGS.

(** The length of the longest name of a list, and a run of [n] letters
    followed by [tl]: names longer than every member of a list. *)
Fixpoint longest (RB : list string) : nat :=
  match RB with
  | [] => 0
  | r :: RB' => Nat.max (String.length r) (longest RB')
  end.

Fixpoint zs (n : nat) (tl : string) : string :=
  match n with
  | 0 => tl
  | S n' => String "z"%char (zs n' tl)
  end.

(** ** Tensors *)

Record tensor (A : Type) := Tensor { shape : list nat; data : list nat -> A }.
Arguments Tensor {A} _ _.
Arguments shape {A} _.
Arguments data {A} _ _.

Module T.

(** All index tuples of a shape, in row-major order. *)
Fixpoint indices (sh : list nat) : list (list nat) :=
  match sh with
  | [] => [[]]
  | n :: sh' => i ← seq 0 n; (fun r => i :: r) <$> indices sh'
  end.

Definition map {A B} (f : A -> B) (t : tensor A) : tensor B :=
  Tensor (shape t) (fun i => f (data t i)).

Definition zip_with {A B C} (f : A -> B -> C) (t : tensor A) (u : tensor B) : tensor C :=
  Tensor (shape t) (fun i => f (data t i) (data u i)).

(** [t[mask] = v]: masked assignment of a constant. *)
Definition masked_fill {A} (t : tensor A) (mask : tensor bool) (v : A) : tensor A :=
  Tensor (shape t) (fun i => if data mask i then v else data t i).

(** [t.all()] for a predicate on the elements. *)
Definition all {A} (p : A -> bool) (t : tensor A) : bool :=
  forallb (fun i => p (data t i)) (indices (shape t)).

(** [t.sum()] of a boolean tensor: the number of true entries. *)
Definition count (t : tensor bool) : nat :=
  length (filter (fun i => data t i = true) (indices (shape t))).

(** [t.unsqueeze(axis=0)]. *)
Definition unsqueeze0 {A} (t : tensor A) : tensor A :=
  Tensor (1 :: shape t) (fun i => data t (tail i)).

(** [t.squeeze(1)]: drops axis 1 when its size is 1, else the tensor is
    returned as it is. *)
Definition squeeze1 {A} (t : tensor A) : tensor A :=
  match shape t with
  | b :: 1 :: sh => Tensor (b :: sh)
                      (fun i => match i with
                                | i0 :: r => data t (i0 :: 0 :: r)
                                | [] => data t []
                                end)
  | _ => t
  end.

(** Re-inserts a zero index at every axis of size 1. *)
Fixpoint unsqueeze_index (sh : list nat) (i : list nat) : list nat :=
  match sh with
  | [] => []
  | 1 :: sh' => 0 :: unsqueeze_index sh' i
  | _ :: sh' => match i with
                | [] => []
                | i0 :: r => i0 :: unsqueeze_index sh' r
                end
  end.

(** [t.squeeze()]: drops every axis of size 1. *)
Definition squeeze {A} (t : tensor A) : tensor A :=
  Tensor (filter (fun n => n ≠ 1) (shape t))
         (fun i => data t (unsqueeze_index (shape t) i)).

(** [t.squeeze(0)]: drops axis 0 when its size is 1. *)
Definition squeeze0 {A} (t : tensor A) : tensor A :=
  match shape t with
  | 1 :: sh => Tensor sh (fun i => data t (0 :: i))
  | _ => t
  end.

(** [t.repeat_interleave(3, 0)] on a tensor of rank at least 1. *)
Definition repeat_interleave_3_0 {A} (t : tensor A) : tensor A :=
  match shape t with
  | c :: sh => Tensor (3 * c :: sh)
                 (fun i => match i with
                           | i0 :: r => data t (i0 / 3 :: r)
                           | [] => data t []
                           end)
  | [] => t
  end.

(** Whether a tensor of shape [src] can be broadcast to shape [dst] for an
    in-place update of a tensor of shape [dst]: aligned from the right,
    every axis of [src] has size 1 or the size of its partner. *)
Definition broadcastable (src dst : list nat) : bool :=
  (length src <=? length dst)
  && forallb (fun p : nat * nat => (p.1 =? 1) || (p.1 =? p.2))
             (zip src (drop (length dst - length src) dst)).

(** The entry of a tensor of shape [src] that broadcasting pairs with
    index [i] of the larger tensor. *)
Definition broadcast_index (src i : list nat) : list nat :=
  base.zip_with (fun s j => if s =? 1 then 0 else j) src
                (drop (length i - length src) i).

(** [t] broadcast to shape [sh]. *)
Definition expand {A} (sh : list nat) (t : tensor A) : tensor A :=
  Tensor sh (fun i => data t (broadcast_index (shape t) i)).

(** Whether [p] is a prefix of [l]. *)
Fixpoint is_prefix (p l : list nat) : bool :=
  match p, l with
  | [], _ => true
  | a :: p', b :: l' => (a =? b) && is_prefix p' l'
  | _ :: _, [] => false
  end.

(** [t[~mask] = 0] for a boolean mask over the leading axes of [t]: an
    IndexError unless the shape of the mask is a prefix of the shape of
    [t]. *)
Definition zero_outside (t : tensor Q) (mask : tensor bool) : option (tensor Q) :=
  if is_prefix (shape mask) (shape t) then
    Some (Tensor (shape t)
            (fun i => if data mask (take (length (shape mask)) i) then data t i else 0%Q))
  else None.

(** [t.repeat_interleave(3, 1)] on a tensor of rank at least 2. *)
Definition repeat_interleave_3_1 {A} (t : tensor A) : tensor A :=
  match shape t with
  | b :: c :: sh => Tensor (b :: 3 * c :: sh)
                      (fun i => match i with
                                | i0 :: i1 :: r => data t (i0 :: i1 / 3 :: r)
                                | _ => data t i
                                end)
  | _ => t
  end.

(** [t[..., c]]: selects index [c] on the last axis (a view in the source). *)
Definition select_last {A} (c : nat) (t : tensor A) : tensor A :=
  Tensor (removelast (shape t)) (fun i => data t (i ++ [c])).

(** Writes [v] through the view [t[..., c]] into [t]. *)
Definition write_last {A} (c : nat) (v : tensor A) (t : tensor A) : tensor A :=
  Tensor (shape t)
         (fun i => if bool_decide (last i = Some c) then data v (removelast i)
                   else data t i).

(** einops [rearrange(t, 'b p c h w -> (b p) c h w')]. *)
Definition merge_b_p {A} (t : tensor A) : option (tensor A) :=
  match shape t with
  | [b; p; c; h; w] =>
      Some (Tensor [b * p; c; h; w]
              (fun i => match i with
                        | n :: r => data t (n / p :: n mod p :: r)
                        | [] => data t []
                        end))
  | _ => None
  end.

(** einops [rearrange(t, '(b p) c h w -> b p c h w', p=p)]: an error when the
    leading axis is not a multiple of [p]. *)
Definition split_b_p {A} (p : nat) (t : tensor A) : option (tensor A) :=
  match shape t with
  | [n; c; h; w] =>
      if bool_decide (p ≠ 0 ∧ n mod p = 0) then
        Some (Tensor [n / p; p; c; h; w]
                (fun i => match i with
                          | b :: q :: r => data t (b * p + q :: r)
                          | _ => data t i
                          end))
      else None
  | _ => None
  end.

End T.

(** ** Single-precision arithmetic of the resize index

    The nearest-neighbour resize of the library computes its source index in
    single precision.  A positive single-precision number is kept as a pair
    [(m, e)] standing for [m * 2^e] with [m] of at most 24 bits; the sizes
    and indices of a tensor are far from the exponent range, so exponents are
    not bounded. *)

Module F32.

(** [n / d] rounded to the nearest integer, ties to the even one. *)
Definition rne (n d : Z) : Z :=
  let q := (n / d)%Z in
  let r := (n mod d)%Z in
  if (2 * r <? d)%Z then q
  else if (d <? 2 * r)%Z then (q + 1)%Z
  else if Z.even q then q else (q + 1)%Z.

(** [m * 2^e] rounded to 24 significant bits. *)
Definition round24 (m e : Z) : Z * Z :=
  if (m <? 2 ^ 24)%Z then (m, e)
  else let s := (Z.log2 m - 23)%Z in (rne m (2 ^ s), (e + s)%Z).

(** [static_cast<float>(n)] *)
Definition of_int (n : Z) : Z * Z := round24 n 0.

Definition mul (a b : Z * Z) : Z * Z := round24 (a.1 * b.1) (a.2 + b.2).

(** The quotient is scaled by [2^s] so that its integer part has 24 bits,
    then rounded. *)
Definition div (a b : Z * Z) : Z * Z :=
  if (a.1 =? 0)%Z then (0, 0)%Z
  else
    let e0 := (Z.log2 a.1 - Z.log2 b.1)%Z in
    let num s := (a.1 * 2 ^ Z.max s 0)%Z in
    let den s := (b.1 * 2 ^ Z.max (- s) 0)%Z in
    let s := if (den (23 - e0) * 2 ^ 23 <=? num (23 - e0))%Z
             then (23 - e0)%Z else (24 - e0)%Z in
    (rne (num s) (den s), (a.2 - b.2 - s)%Z).

(** [floorf], as an integer. *)
Definition floor (a : Z * Z) : Z :=
  if (0 <=? a.2)%Z then (a.1 * 2 ^ a.2)%Z else (a.1 / 2 ^ (- a.2))%Z.

End F32.

(** ** torch.nn.functional operations of [make_valid_mask] *)

Module F.

(** The pixels of window [(i, j)] of a [k]×[k] pooling with stride [k]. *)
Definition window (k i j : nat) : list (nat * nat) :=
  y ← seq (i * k) k; (fun x => (y, x)) <$> seq (j * k) k.

(** Maximum of a non-empty list. *)
Definition maximum (l : list Q) : Q :=
  match l with
  | [] => 0%Q
  | x :: l' => foldl Qmax x l'
  end.

(** [F.max_pool2d(t, kernel_size=k)] on a 4-D input: stride [k], no padding,
    floor mode, so that the last [h mod k] rows and [w mod k] columns are
    dropped.  A zero kernel, an empty channel axis or an empty output is an
    error; the batch axis may be empty. *)
Definition max_pool2d (t : tensor Q) (k : nat) : option (tensor Q) :=
  match shape t with
  | [n; c; h; w] =>
      if bool_decide (k ≠ 0 ∧ c ≠ 0 ∧ h / k ≠ 0 ∧ w / k ≠ 0) then
        Some (Tensor [n; c; h / k; w / k]
                (fun i => match i with
                          | [b; ch; y; x] =>
                              maximum ((fun p => data t [b; ch; p.1; p.2]) <$> window k y x)
                          | _ => 0%Q
                          end))
      else None
  | _ => None
  end.

(** Source index of nearest-neighbour resizing from [n_in] to [n_out]:
    [min(floorf(dst * scale), n_in - 1)] with
    [scale = static_cast<float>(n_in) / n_out], all in single precision.
    (The CPU kernel short-cuts [n_out = n_in] and [n_out = 2 * n_in] to
    [dst] and [dst >> 1], which is what the formula gives below 2^24.) *)
Definition nearest_index (n_in n_out dst : nat) : nat :=
  let scale := F32.div (F32.of_int (Z.of_nat n_in)) (F32.of_int (Z.of_nat n_out)) in
  Z.to_nat (Z.min (F32.floor (F32.mul (F32.of_int (Z.of_nat dst)) scale))
                  (Z.of_nat n_in - 1)).

(** [F.interpolate(t, (s, s), mode='nearest')] on a 4-D input. *)
Definition interpolate_nearest {A} (t : tensor A) (s : nat) : option (tensor A) :=
  match shape t with
  | [n; c; h; w] =>
      if bool_decide (s ≠ 0 ∧ c ≠ 0 ∧ h ≠ 0 ∧ w ≠ 0) then
        Some (Tensor [n; c; s; s]
                (fun i => match i with
                          | [b; ch; y; x] =>
                              data t [b; ch; nearest_index h s y; nearest_index w s x]
                          | _ => data t i
                          end))
      else None
  | _ => None
  end.

End F.

(** ** MuliTask.make_valid_mask *)

Definition make_valid_mask (image_size num_positive : nat)
    (mask_float : tensor Q) (max_pool_size : nat) : option (tensor bool) :=
  let mask_float :=
    if bool_decide (length (shape mask_float) = 3) then T.unsqueeze0 mask_float
    else mask_float in
  let reshape_temp := bool_decide (length (shape mask_float) = 5) in
  mask_float ← (if reshape_temp then T.merge_b_p mask_float else Some mask_float);
  let mask_float := T.map (fun v => (1 - v)%Q) mask_float in
  mask_float ← F.max_pool2d mask_float max_pool_size;
  mask_float ← F.interpolate_nearest mask_float image_size;
  let mask_valid := T.map (fun v => Qeq_bool v 0) mask_float in
  if reshape_temp then T.split_b_p num_positive mask_valid else Some mask_valid.

(** Default [max_pool_size=4] of the source. *)
Definition default_max_pool_size : nat := 4.

(** Whether pixel [i] of the result is marked valid (false if the call
    fails). *)
Definition valid_at (image_size num_positive : nat) (mask_float : tensor Q)
    (max_pool_size : nat) (i : list nat) : bool :=
  match make_valid_mask image_size num_positive mask_float max_pool_size with
  | Some v => data v i
  | None => false
  end.

(** A tensor built from nested lists of rows, for the examples. *)
Definition of_rows {A} (d : A) (rows : list (list A)) : tensor A :=
  Tensor [1; 1; length rows; length (hd [] rows)]
         (fun i => match i with
                   | [_; _; y; x] => nth x (nth y rows []) d
                   | _ => d
                   end).



Definition mask_corner_4 : tensor Q :=
  of_rows 0%Q [ [1; 1; 1; 1]; [1; 1; 1; 1]; [1; 1; 1; 1]; [1; 1; 1; 0] ]%Q.

(** An 82×82 mask whose only invalid pixel is (41, 0). *)
Definition mask_hole_82 : tensor Q :=
  Tensor [1; 1; 82; 82]
         (fun i => match i with
                   | [_; _; 41; 0] => 0%Q
                   | _ => 1%Q
                   end).

(** The pooled value that [make_valid_mask] reads back for output pixel
    [(y, x)] of plane [(b, ch)] of an [h]×[w] mask. *)
Definition pooled (m : tensor Q) (k h w s b ch y x : nat) : Q :=
  F.maximum ((fun p => (1 - data m [b; ch; p.1; p.2])%Q)
               <$> F.window k (F.nearest_index (h / k) s y) (F.nearest_index (w / k) s x)).

(** Whether output pixel [(y, x)] is valid for the [h]×[w] plane [f], pooled
    with size [k] and resized to [s]×[s]. *)
Definition plane_valid (f : nat -> nat -> Q) (k h w s y x : nat) : bool :=
  Qeq_bool
    (F.maximum ((fun p => (1 - f p.1 p.2)%Q)
                  <$> F.window k (F.nearest_index (h / k) s y) (F.nearest_index (w / k) s x)))
    0.

(** A 5-D mask of two samples with three views each, on 4×4 planes; the
    only invalid pixel is (0, 0) of view 2 of sample 1. *)
Definition views_mask : tensor Q :=
  Tensor [2; 3; 1; 4; 4]
         (fun i => match i with
                   | [1; 2; _; 0; 0] => 0%Q
                   | _ => 1%Q
                   end).

(** An 8×8 mask of two samples that is valid everywhere. *)
Definition ones_mask : tensor Q := Tensor [2; 1; 8; 8] (fun _ => 1%Q).

(** ** Samples and batches *)

(** [batch['positive']]: the fields the training step reads.  In a batch
    [segment_semantic] is B×H×W×3 and [mask_valid] is B×1×H×W. *)
Record positive := Positive {
  rgb : tensor Q;
  normal : tensor Q;
  segment_semantic : tensor Z;
  mask_valid : tensor Q;
  building : string
}.

(** What the network returns: [preds['normal']], [preds['segment_semantic']]. *)
Record predictions := Predictions {
  preds_normal : tensor Q;
  preds_segment_semantic : tensor Q
}.

(** ** 64-bit label arithmetic *)

Definition wrap64 (z : Z) : Z := ((z + 2 ^ 63) mod 2 ^ 64 - 2 ^ 63)%Z.

(** ** Label preparation of [shared_step] *)

(** [(semantic[...,0]==255) * (semantic[...,1]==255) * (semantic[...,2]==255)] *)
Definition white (semantic : tensor Z) : tensor bool :=
  T.zip_with andb
    (T.zip_with andb
       (T.map (fun v => v =? 255)%Z (T.select_last 0 semantic))
       (T.map (fun v => v =? 255)%Z (T.select_last 1 semantic)))
    (T.map (fun v => v =? 255)%Z (T.select_last 2 semantic)).

(** [semantic_gt] after the two assignments that label background and
    undefined pixels as 0. *)
Definition zero_background (semantic semantic_gt : tensor Z) : tensor Z :=
  let semantic_gt := T.masked_fill semantic_gt (white semantic) 0%Z in
  T.masked_fill semantic_gt (T.map (fun v => v =? -1)%Z semantic_gt) 0%Z.

(** [semantic_gt *= mask_valid_semantic]: the mask is broadcast to the shape
    of the labels; a RuntimeError when it cannot be. *)
Definition mask_labels (semantic_gt : tensor Z) (mask_valid_semantic : tensor bool)
    : option (tensor Z) :=
  if T.broadcastable (shape mask_valid_semantic) (shape semantic_gt) then
    Some (T.zip_with (fun v m => wrap64 (v * Z.b2z m)) semantic_gt
            (T.expand (shape semantic_gt) mask_valid_semantic))
  else None.

(** Whether a label image has [rank] axes, the last one with the three
    channels that are read: with fewer axes or channels the indexing
    [semantic[..., c]] is an IndexError.  (Images with more axes than the
    B×H×W×3 and H×W×3 of the data model are not modelled: no result.) *)
Definition has_channels (rank : nat) (semantic : tensor Z) : bool :=
  (length (shape semantic) =? rank) && (3 <=? default 0 (last (shape semantic))).

(** [semantic_gt -= 1] *)
Definition shift_labels (semantic_gt : tensor Z) : tensor Z :=
  T.map (fun v => wrap64 (v - 1)) semantic_gt.

(** The labels of [shared_step] right before the shift. *)
Definition labels_before_shift (semantic : tensor Z) (mask_valid_semantic : tensor bool)
    : option (tensor Z) :=
  if has_channels 4 semantic then
    mask_labels (zero_background semantic (T.select_last 0 semantic)) mask_valid_semantic
  else None.

(** The labels handed to the cross entropy. *)
Definition labels_after_shift (semantic : tensor Z) (mask_valid_semantic : tensor bool)
    : option (tensor Z) :=
  shift_labels <$> labels_before_shift semantic mask_valid_semantic.

(** ** Losses *)

(** A scalar loss: a number, or [nan]. *)
Inductive scalar := Num (q : Q) | NaN.

Definition smul (a b : scalar) : scalar :=
  match a, b with
  | Num x, Num y => Num (x * y)
  | _, _ => NaN
  end.

Definition sadd (a b : scalar) : scalar :=
  match a, b with
  | Num x, Num y => Num (x + y)
  | _, _ => NaN
  end.

Definition clamp (lo hi x : Q) : Q := Qmin (Qmax x lo) hi.

Definition Qsum (l : list Q) : Q := foldr Qplus 0%Q l.

Module nn.

(** Whether pixel [i] of [target] takes part in the cross entropy. *)
Definition counted (ignore_index : Z) (target : tensor Z) (i : list nat) : bool :=
  negb (data target i =? ignore_index)%Z.

(** The class scores of [input] (B×C×...) at pixel [i] of the target. *)
Definition scores (input : tensor Q) (i : list nat) : list Q :=
  match i, shape input with
  | b :: r, _ :: c :: _ => (fun k => data input (b :: k :: r)) <$> seq 0 c
  | _, _ => []
  end.

(** The target pixel that entry [j] of the input scores belongs to. *)
Definition pixel_of (j : list nat) : list nat :=
  match j with
  | b :: _ :: r => b :: r
  | _ => j
  end.

(** The number of classes of a batched input (N, C, d1, ..., dk), when the
    target has the matching shape (N, d1, ..., dk); a mismatch is an error
    of the library. *)
Definition classes (input : tensor Q) (target : tensor Z) : option nat :=
  match shape input with
  | b :: c :: rest => if bool_decide (shape target = b :: rest) then Some c else None
  | _ => None
  end.

(** A target must be [ignore_index] or the index of one of the [c] classes. *)
Definition class_index (ignore_index : Z) (c : nat) (t : Z) : bool :=
  (t =? ignore_index)%Z || ((0 <=? t)%Z && (t <? Z.of_nat c)%Z).

(** The mean of the default reduction: [nan] over no element. *)
Definition mean (l : list Q) : scalar :=
  if length l =? 0 then NaN
  else Num (Qsum l / inject_Z (Z.of_nat (length l)))%Q.

(** [nn.CrossEntropyLoss(ignore_index=...)] with the default mean reduction,
    on a batched input: the mean, over the pixels whose target is not
    [ignore_index], of the negative log-likelihood [nll] of the target
    class; [nan] when no pixel is counted; an error when the shapes do not
    match or a target that is not ignored is not a class index. *)
Definition CrossEntropyLoss (ignore_index : Z) (nll : list Q -> Z -> Q)
    (input : tensor Q) (target : tensor Z) : option scalar :=
  c ← classes input target;
  if forallb (fun i => class_index ignore_index c (data target i))
             (T.indices (shape target)) then
    let pixels := filter (fun i => counted ignore_index target i = true)
                         (T.indices (shape target)) in
    Some (mean ((fun i => nll (scores input i) (data target i)) <$> pixels))
  else None.

End nn.

(** ** MuliTask.shared_step *)

Section SharedStep.

Variables image_size num_positive : nat.
(** [self(rgb)], the forward pass of [MultiTaskModel]; it may raise. *)
Variable forward : tensor Q -> option predictions.
(** [losses.masked_losses.masked_l1_loss]; it may raise. *)
Variable masked_l1_loss : tensor Q -> tensor Q -> tensor bool -> option scalar.
(** Per-pixel negative log-likelihood of the cross entropy. *)
Variable nll : list Q -> Z -> Q.

(** The result holds [step_results] and the batch's [segment_semantic] after
    the call: [semantic_gt] is a view of its channel 0, so the in-place label
    edits are written into the batch.  An exception of any stage gives no
    result. *)
Definition shared_step (batch : positive) (train : bool)
    : option (gmap string scalar * tensor Z) :=
  let step_results : gmap string scalar := ∅ in
  let criterion := nn.CrossEntropyLoss (-1) nll in
  mask_valid ← make_valid_mask image_size num_positive (mask_valid batch)
                  default_max_pool_size;
  let mask_valid_semantic := T.squeeze1 mask_valid in
  let mask_valid_normal := T.repeat_interleave_3_1 mask_valid in
  let rgb := rgb batch in
  let semantic := segment_semantic batch in
  let normal_gt := normal batch in
  semantic_gt ← labels_after_shift semantic mask_valid_semantic;
  preds ← forward rgb;
  let normal_preds := preds_normal preds in
  let normal_preds := T.map (clamp 0 1) normal_preds in
  let semantic_preds := preds_segment_semantic preds in
  loss_normal ← masked_l1_loss normal_preds normal_gt mask_valid_normal;
  loss_semantic ← criterion semantic_preds semantic_gt;
  let total_loss := sadd (smul (Num 10) loss_normal) loss_semantic in
  let step_results :=
    <["loss" := total_loss]>
      (<["semantic_loss" := loss_semantic]>
         (<["normal_loss" := loss_normal]> step_results)) in
  Some (step_results, T.write_last 0 semantic_gt semantic).

End SharedStep.

(** A batch of one 8×8 sample for the examples: pixel (0, 0) is pure white,
    the other pixels carry class 3, and the mesh is invalid at (7, 7). *)
Definition tiny_batch : positive :=
  Positive
    (Tensor [1; 3; 8; 8] (fun _ => 0%Q))
    (Tensor [1; 3; 8; 8] (fun _ => (1 # 2)%Q))
    (Tensor [1; 8; 8; 3]
       (fun i => match i with
                 | [_; 0; 0; _] => 255%Z
                 | [_; _; _; 0] => 3%Z
                 | _ => 0%Z
                 end))
    (Tensor [1; 1; 8; 8]
       (fun i => match i with
                 | [_; _; 7; 7] => 0%Q
                 | _ => 1%Q
                 end))
    "ai_001_001".

(** Stand-ins for the network and the two loss kernels in the examples. *)
Definition tiny_forward (x : tensor Q) : option predictions :=
  Some (Predictions (Tensor [1; 3; 8; 8] (fun _ => 2%Q))
          (Tensor [1; 5; 8; 8] (fun _ => 0%Q))).

Definition tiny_l1 (preds target : tensor Q) (mask : tensor bool) : option scalar :=
  Some (Num (Qsum ((fun i => if data mask i then Qabs (data preds i - data target i)
                             else 0%Q)
                     <$> T.indices (shape preds)))).

Definition tiny_nll (scores : list Q) (class : Z) : Q := 1%Q.

(** The valid mask of [tiny_batch]. *)
Definition tiny_mask_valid : tensor bool :=
  default (Tensor [] (fun _ => false))
          (make_valid_mask 8 1 (mask_valid tiny_batch) default_max_pool_size).

(** The labels of [tiny_batch] before the shift. *)
Definition tiny_labels_before : tensor Z :=
  default (Tensor [] (fun _ => 0%Z))
          (labels_before_shift (segment_semantic tiny_batch) (T.squeeze1 tiny_mask_valid)).

(** The batch object after an in-place edit of its label image. *)
Definition with_semantic (batch : positive) (semantic : tensor Z) : positive :=
  Positive (rgb batch) (normal batch) semantic (mask_valid batch) (building batch).

(** The result of [shared_step] on [tiny_batch], and of a second call on the
    batch the first one leaves. *)
Definition tiny_step : gmap string scalar * tensor Z :=
  default (∅, Tensor [] (fun _ => 0%Z))
          (shared_step 8 1 tiny_forward tiny_l1 tiny_nll tiny_batch true).

Definition tiny_step2 : gmap string scalar * tensor Z :=
  default (∅, Tensor [] (fun _ => 0%Z))
          (shared_step 8 1 tiny_forward tiny_l1 tiny_nll
             (with_semantic tiny_batch tiny_step.2) true).

(** ** MuliTask.setup_datasets *)

Record hparams := Hparams {
  use_taskonomy : bool;
  use_replica : bool;
  use_gso : bool;
  use_hypersim : bool
}.

Record dataset_lists := DatasetLists {
  train_datasets : list string;
  val_datasets : list string
}.

(** The two dataset-name lists that [setup_datasets] stores on the module. *)
Definition setup_datasets (h : hparams) : dataset_lists :=
  let train_datasets := [] in
  let train_datasets :=
    if use_taskonomy h then train_datasets ++ ["taskonomy"] else train_datasets in
  let train_datasets :=
    if use_replica h then train_datasets ++ ["replica"] else train_datasets in
  let train_datasets :=
    if use_gso h then train_datasets ++ ["gso"] else train_datasets in
  let train_datasets :=
    if use_hypersim h then train_datasets ++ ["hypersim"] else train_datasets in
  {| train_datasets := train_datasets;
     val_datasets := ["taskonomy"; "replica"; "hypersim"] |}.

(** ** defaultdict(list) *)

Module dd.

(** The list stored under [k], empty when the key is missing. *)
Definition get {A} (k : string) (m : gmap string (list A)) : list A :=
  default [] (m !! k).

(** Reading [m[k]] stores the empty list under a missing key. *)
Definition touch {A} (k : string) (m : gmap string (list A)) : gmap string (list A) :=
  match m !! k with
  | Some _ => m
  | None => <[k := []]> m
  end.

(** [m[k].append(x)] *)
Definition append {A} (k : string) (x : A) (m : gmap string (list A)) : gmap string (list A) :=
  <[k := get k m ++ [x]]> m.

End dd.

(** ** MuliTask.select_val_samples_for_datasets *)

(** Local state of the curation loop. *)
Record curation := Curation {
  frls : nat;
  val_imgs : gmap string (list nat)
}.

(** How a run of the loop on a finite supply of random draws ends: it
    returns [val_imgs], it raises, or the supply is used up while the loop
    guard still holds. *)
Inductive outcome :=
  | Returned (imgs : gmap string (list nat))
  | Raised
  | Spinning (st : curation).

(** [random.randint(0, n - 1)] fed with the raw random number [r]: a
    ValueError on the empty range. *)
Definition randint0 (n r : nat) : option nat :=
  if n =? 0 then None else Some (r mod n).

(** [len(val_imgs['replica']) + len(val_imgs['taskonomy']) +
     len(val_imgs['hypersim']) + len(val_imgs['gso'])] *)
Definition accepted (imgs : gmap string (list nat)) : nat :=
  length (dd.get "replica" imgs) + length (dd.get "taskonomy" imgs)
  + length (dd.get "hypersim" imgs) + length (dd.get "gso" imgs).

(** The four reads of the loop guard create the four keys. *)
Definition guard_reads (imgs : gmap string (list nat)) : gmap string (list nat) :=
  dd.touch "gso" (dd.touch "hypersim" (dd.touch "taskonomy" (dd.touch "replica" imgs))).

Definition loop_guard (st : curation) : bool := accepted (val_imgs st) <? 95.

Section Curation.

Variable REPLICA_BUILDINGS : list string.
Variable valset : list positive.

(** One iteration of the loop body, for the raw random number [r]. *)
Definition loop_body (st : curation) (r : nat) : option curation :=
  idx ← randint0 (length valset) r;
  example ← valset !! idx;
  let building := building example in
  let val_imgs := val_imgs st in
  if building_in_hypersim building && (length (dd.get "hypersim" val_imgs) <? 40) then
    Some (Curation (frls st) (dd.append "hypersim" idx val_imgs))
  else if building_in_replica REPLICA_BUILDINGS building
          && (length (dd.get "replica" val_imgs) <? 25) then
    if Py.startswith "frl" building && (15 <? frls st) then Some st
    else
      let frls := if Py.startswith "frl" building then frls st + 1 else frls st in
      Some (Curation frls (dd.append "replica" idx val_imgs))
  else if building_in_gso REPLICA_BUILDINGS building
          && (length (dd.get "gso" val_imgs) <? 20) then
    Some (Curation (frls st) (dd.append "gso" idx val_imgs))
  else if building_in_taskonomy REPLICA_BUILDINGS building
          && (length (dd.get "taskonomy" val_imgs) <? 30) then
    Some (Curation (frls st) (dd.append "taskonomy" idx val_imgs))
  else Some st.

(** The [while] loop, run on the draws of [draws]. *)
Fixpoint select_loop (draws : list nat) (st : curation) : outcome :=
  let st := Curation (frls st) (guard_reads (val_imgs st)) in
  if loop_guard st then
    match draws with
    | [] => Spinning st
    | r :: draws' =>
        match loop_body st r with
        | Some st' => select_loop draws' st'
        | None => Raised
        end
    end
  else Returned (val_imgs st).

Definition select_val_samples_for_datasets (draws : list nat) : outcome :=
  select_loop draws (Curation 0 ∅).

(** The states in which the loop guard is evaluated. *)
Inductive reachable : curation -> Prop :=
  | reachable_start : reachable (Curation 0 (guard_reads ∅))
  | reachable_step st r st' :
      reachable st -> loop_guard st = true -> loop_body st r = Some st' ->
      reachable (Curation (frls st') (guard_reads (val_imgs st'))).

(** Accepted Replica samples whose building starts with [frl]. *)
Definition is_frl (idx : nat) : bool :=
  match valset !! idx with
  | Some e => Py.startswith "frl" (building e)
  | None => false
  end.

Definition frl_accepted (imgs : gmap string (list nat)) : nat :=
  length (filter (fun idx => is_frl idx = true) (dd.get "replica" imgs)).

(** How many draws of [draws] select index [idx]. *)
Definition draws_of (idx : nat) (draws : list nat) : nat :=
  length (filter (fun r => randint0 (length valset) r = Some idx) draws).

End Curation.

(** Every bucket within its quota. *)
Definition within_quotas (imgs : gmap string (list nat)) : Prop :=
  length (dd.get "hypersim" imgs) <= 40
  ∧ length (dd.get "replica" imgs) <= 25
  ∧ length (dd.get "gso" imgs) <= 20
  ∧ length (dd.get "taskonomy" imgs) <= 30.

(** A sample of which only the building matters. *)
Definition sample_of (b : string) : positive :=
  Positive (Tensor [] (fun _ => 0%Q)) (Tensor [] (fun _ => 0%Q))
           (Tensor [] (fun _ => 0%Z)) (Tensor [] (fun _ => 0%Q)) b.

(** *** Bucket sizes and the decision of one iteration *)

(** The four bucket sizes. *)
Definition sizes (m : gmap string (list nat)) : nat * nat * nat * nat :=
  (length (dd.get "hypersim" m), length (dd.get "replica" m),
   length (dd.get "gso" m), length (dd.get "taskonomy" m)).

(** The four keys of [val_imgs]. *)
Inductive bucket := Hypersim | Replica | Gso | Taskonomy.

Definition key (b : bucket) : string :=
  match b with
  | Hypersim => "hypersim" | Replica => "replica" | Gso => "gso" | Taskonomy => "taskonomy"
  end.

(** The sizes after one append to bucket [b]. *)
Definition bump (b : bucket) (s : nat * nat * nat * nat) : nat * nat * nat * nat :=
  let '(h, r, g, t) := s in
  match b with
  | Hypersim => (h + 1, r, g, t)
  | Replica => (h, r + 1, g, t)
  | Gso => (h, r, g + 1, t)
  | Taskonomy => (h, r, g, t + 1)
  end.

(** Which bucket, if any, accepts a sample of the given building. *)
Definition verdict (RB : list string) (b : string) (s : nat * nat * nat * nat)
    (frls : nat) : option bucket :=
  let '(h, r, g, t) := s in
  if building_in_hypersim b && (h <? 40) then Some Hypersim
  else if building_in_replica RB b && (r <? 25) then
    if Py.startswith "frl" b && (15 <? frls) then None else Some Replica
  else if building_in_gso RB b && (g <? 20) then Some Gso
  else if building_in_taskonomy RB b && (t <? 30) then Some Taskonomy
  else None.

(** The state after a sample of building [b] at index [idx] was accepted by
    bucket [k]. *)
Definition accept (b : string) (idx : nat) (k : bucket) (st : curation) : curation :=
  Curation (match k with
            | Replica => if Py.startswith "frl" b then frls st + 1 else frls st
            | _ => frls st
            end)
           (dd.append (key k) idx (val_imgs st)).

(** The guard's sum and the quotas, on bucket sizes. *)
Definition total (s : nat * nat * nat * nat) : nat :=
  let '(h, r, g, t) := s in r + t + h + g.

Definition in_quota (s : nat * nat * nat * nat) : Prop :=
  let '(h, r, g, t) := s in h <= 40 ∧ r <= 25 ∧ g <= 20 ∧ t <= 30.

(** The state in which the loop guard is evaluated. *)
Definition at_guard (st : curation) : curation :=
  Curation (frls st) (guard_reads (val_imgs st)).

(** A pool without GSO and Taskonomy samples. *)
Definition barren (RB : list string) (valset : list positive) : bool :=
  forallb (fun e => negb (building_in_gso RB (building e))
                    && negb (building_in_taskonomy RB (building e))) valset.

(** Whether the sample at [idx] has a building satisfying [p]. *)
Definition sample_is (valset : list positive) (p : string -> bool) (idx : nat) : bool :=
  match valset !! idx with
  | Some e => p (building e)
  | None => false
  end.

(** A Replica building that is neither a Hypersim scene nor an [frl] one. *)
Definition plain_replica (b : string) (RB : list string) : bool :=
  building_in_replica RB b && negb (building_in_hypersim b)
  && negb (Py.startswith "frl" b).

(** The bucket sizes of a run that returned. *)
Definition returned_sizes (o : outcome) : option (nat * nat * nat * nat) :=
  match o with
  | Returned m => Some (sizes m)
  | _ => None
  end.

(** The state of a run that used up its draws. *)
Definition spinning_state (o : outcome) : option curation :=
  match o with
  | Spinning st => Some st
  | _ => None
  end.

(** A pool with one sample of each dataset, and a run on it that draws the
    GSO sample 20 times, the Hypersim sample 40 times, the Replica sample 25
    times and the Taskonomy sample 30 times. *)
Definition diverse_pool : list positive :=
  [sample_of "ai_001_001"; sample_of "apartment_0"; sample_of "cosmos";
   sample_of "frl_apartment_0-chair"].

Definition diverse_draws : list nat :=
  replicate 20 3 ++ replicate 40 0 ++ replicate 25 1 ++ replicate 30 2.

(** A pool with a single Hypersim sample and one with a single [frl]
    Replica sample. *)
Definition hypersim_pool : list positive := [sample_of "ai_001_001"].

Definition frl_pool : list positive := [sample_of "frl_apartment_0"].

(** The predicate a sample must satisfy to enter a bucket. *)
Definition bucket_pred (RB : list string) (k : bucket) : string -> bool :=
  match k with
  | Hypersim => building_in_hypersim
  | Replica => building_in_replica RB
  | Gso => building_in_gso RB
  | Taskonomy => building_in_taskonomy RB
  end.

(** The four keys the loop guard creates. *)
Definition bucket_keys : gset string :=
  {["replica"; "taskonomy"; "hypersim"; "gso"]}.

(** The dictionary a run returned (empty when it did not return). *)
Definition returned_imgs (o : outcome) : gmap string (list nat) :=
  match o with
  | Returned m => m
  | _ => ∅
  end.

(** ** MuliTask.log_validation_example_images *)

(** [wandb.Image(data, caption=...)] *)
Record wandb_Image (P : Type) := WandbImage { image_data : P; caption : string }.
Arguments WandbImage {P} _ _.
Arguments image_data {P} _.
Arguments caption {P} _.

(** The five pictures drawn for one logged example. *)
Record pictures (P : Type) := Pictures {
  rgb_img : P;
  semantic_gt_im : P;
  semantic_pred_im : P;
  normal_gt_im : P;
  normal_pred_im : P
}.
Arguments Pictures {P} _ _ _ _ _.
Arguments rgb_img {P} _.
Arguments semantic_gt_im {P} _.
Arguments semantic_pred_im {P} _.
Arguments normal_gt_im {P} _.
Arguments normal_pred_im {P} _.

(** Decimal rendering of an index inside an f-string. *)
Definition str (n : nat) : string := NilEmpty.string_of_uint (Nat.to_uint n).

(** A [for] loop over [l] whose body may raise. *)
Fixpoint for_each {A S} (body : A -> S -> option S) (l : list A) (s : S) : option S :=
  match l with
  | [] => Some s
  | x :: l' => s' ← body x s; for_each body l' s'
  end.

Section Logging.

Variables image_size num_positive : nat.
Variable P : Type.
(** Inference, overlay drawing and conversion to arrays for one example,
    given its masked normals, its final labels and the mask of its labelled
    pixels; it may raise. *)
Variable render : string -> positive -> tensor Q -> tensor Z -> tensor bool
                  -> option (pictures P).
Variable valset : list positive.

(** [semantic_gt] as first read from the label image: two channels combined
    for GSO, channel 0 otherwise. *)
Definition decode_labels (dataset : string) (semantic : tensor Z) : tensor Z :=
  if bool_decide (dataset = "gso") then
    T.zip_with (fun a b => wrap64 (wrap64 (2 ^ 8 * a) + b))
               (T.select_last 0 semantic) (T.select_last 1 semantic)
  else T.select_last 0 semantic.

(** The final labels of an example, given its valid mask. *)
Definition final_labels (dataset : string) (example : positive)
    (mask_valid : tensor bool) : option (tensor Z) :=
  let semantic := segment_semantic example in
  let mask_valid_semantic := T.squeeze mask_valid in
  if has_channels 3 semantic then
    let semantic_gt := decode_labels dataset semantic in
    let semantic_gt := zero_background semantic semantic_gt in
    mask_labels semantic_gt mask_valid_semantic
  else None.

(** The appends of one example that is not skipped. *)
Definition log_pictures (dataset : string) (img_idx : nat) (v : pictures P)
    (all_imgs : gmap string (list (wandb_Image P))) : gmap string (list (wandb_Image P)) :=
  let all_imgs := dd.append ("rgb-" +:+ dataset)
                    (WandbImage (rgb_img v) ("RGB " +:+ str img_idx)) all_imgs in
  let all_imgs := dd.append ("gt-semantic-" +:+ dataset)
                    (WandbImage (semantic_gt_im v) ("GT-Semantic " +:+ str img_idx)) all_imgs in
  let all_imgs := dd.append ("pred-semantic-" +:+ dataset)
                    (WandbImage (semantic_pred_im v) ("Pred-Semantic " +:+ str img_idx)) all_imgs in
  let all_imgs := dd.append ("gt-normal-" +:+ dataset)
                    (WandbImage (normal_gt_im v) ("GT-Normal I" +:+ str img_idx)) all_imgs in
  dd.append ("pred-normal-" +:+ dataset)
            (WandbImage (normal_pred_im v) ("Pred-Normal I" +:+ str img_idx)) all_imgs.

(** The body of the inner loop for one sample index. *)
Definition log_example (dataset : string) (img_idx : nat)
    (all_imgs : gmap string (list (wandb_Image P)))
    : option (gmap string (list (wandb_Image P))) :=
  example ← valset !! img_idx;
  let normal_gt := normal example in
  mask_valid ← make_valid_mask image_size num_positive (mask_valid example)
                  default_max_pool_size;
  let mask_valid_normal := T.repeat_interleave_3_0 (T.squeeze0 mask_valid) in
  normal_gt ← T.zero_outside normal_gt mask_valid_normal;
  semantic_gt ← final_labels dataset example mask_valid;
  let mask_valid_semantic := T.map (fun v => negb (v =? 0)%Z) semantic_gt in
  if T.count mask_valid_semantic =? 0 then Some all_imgs
  else
    v ← render dataset example normal_gt semantic_gt mask_valid_semantic;
    Some (log_pictures dataset img_idx v all_imgs).

(** The two nested loops; the result is the dictionary handed to the logger. *)
Definition log_validation_example_images (val_datasets : list string)
    (val_samples : gmap string (list nat)) : option (gmap string (list (wandb_Image P))) :=
  for_each (fun dataset all_imgs =>
              for_each (log_example dataset) (dd.get dataset val_samples) all_imgs)
           val_datasets ∅.

End Logging.

(** Two 8×8 validation samples for the examples: one with labels (pixel
    (0, 0) white, class 3 elsewhere, the mesh invalid at (7, 7)) and one
    whose mesh is valid everywhere but whose label image is pure white. *)
Definition labelled_example : positive :=
  Positive
    (Tensor [3; 8; 8] (fun _ => 0%Q))
    (Tensor [3; 8; 8] (fun _ => (1 # 2)%Q))
    (Tensor [8; 8; 3]
       (fun i => match i with
                 | [0; 0; _] => 255%Z
                 | [_; _; 0] => 3%Z
                 | _ => 0%Z
                 end))
    (Tensor [1; 8; 8]
       (fun i => match i with
                 | [_; 7; 7] => 0%Q
                 | _ => 1%Q
                 end))
    "cosmos".

Definition white_example : positive :=
  Positive
    (Tensor [3; 8; 8] (fun _ => 0%Q))
    (Tensor [3; 8; 8] (fun _ => (1 # 2)%Q))
    (Tensor [8; 8; 3] (fun _ => 255%Z))
    (Tensor [1; 8; 8] (fun _ => 1%Q))
    "cosmos".




(** A renderer that numbers its five pictures. *)
Definition numbered_render (dataset : string) (example : positive)
    (normal_gt : tensor Q) (semantic_gt : tensor Z) (mask : tensor bool)
    : option (pictures nat) :=
  Some (Pictures 0 1 2 3 4).


(** The keys under which one example of [dataset] is logged. *)
Definition picture_keys (dataset : string) : list string :=
  ["rgb-" +:+ dataset; "gt-semantic-" +:+ dataset; "pred-semantic-" +:+ dataset;
   "gt-normal-" +:+ dataset; "pred-normal-" +:+ dataset].




(** ** MuliTask.training_step and MuliTask.validation_step *)



Section Steps.

Variables image_size num_positive : nat.
Variable forward : tensor Q -> option predictions.
Variable masked_l1_loss : tensor Q -> tensor Q -> tensor bool -> option scalar.
Variable nll : list Q -> Z -> Q.
(** [self.gpus] *)
Variable gpus : Z.





End Steps.

(** ** MuliTask.select_val_samples_for_datasets2 *)

(** How a run of the second curation loop ends; a run that returns also
    gives the draws it did not use. *)
Inductive outcome2 :=
  | Returned2 (imgs : gmap string (list nat)) (unused : list nat)
  | Raised2
  | Spinning2 (imgs : gmap string (list nat)).

Section Curation2.

Variable valset : list positive.

(** [random.randint(0, len(self.valset))] draws from [len + 1] values. *)
Fixpoint select_loop2 (draws : list nat) (val_imgs : gmap string (list nat)) : outcome2 :=
  let val_imgs := dd.touch "taskonomy" val_imgs in
  if length (dd.get "taskonomy" val_imgs) <? 20 then
    match draws with
    | [] => Spinning2 val_imgs
    | r :: draws' =>
        match randint0 (length valset + 1) r with
        | Some idx => select_loop2 draws' (dd.append "taskonomy" idx val_imgs)
        | None => Raised2
        end
    end
  else Returned2 val_imgs draws.

Definition select_val_samples_for_datasets2 (draws : list nat) : outcome2 :=
  select_loop2 draws ∅.

End Curation2.

(** * Properties *)

(** ** Dataset classification *)

Section Classification.

Implicit Types (s p b : string) (RB : list string).

Lemma mem_true x RB : Py.mem x RB = true <-> x ∈ RB.
Proof. unfold Py.mem. apply bool_decide_eq_true. Qed.

Lemma split_not_nil c s : Py.split c s ≠ [].
Proof.
  destruct s as [|a s]; simpl; [done|].
  destruct (Ascii.eqb a c); [done|]. by destruct (Py.split c s).
Qed.

(** The first field of a split contains no separator. *)
Lemma item0_split_cons c a s :
  Py.item0 (Py.split c (String a s))
  = if Ascii.eqb a c then EmptyString else String a (Py.item0 (Py.split c s)).
Proof.
  simpl. destruct (Ascii.eqb a c); [done|].
  pose proof (split_not_nil c s). by destruct (Py.split c s).
Qed.

(** A prefix without the separator is also a prefix of the first field. *)
Lemma startswith_item0 c p s :
  Py.contains c p = false -> Py.startswith p s = true ->
  Py.startswith p (Py.item0 (Py.split c s)) = true.
Proof.
  revert s. induction p as [|a p IH]; intros s Hc Hp; [done|].
  destruct s as [|a' s]; [done|]. simpl in Hc, Hp.
  destruct (Ascii.eqb a c) eqn:Hac; [done|].
  destruct (Ascii.eqb a a') eqn:Haa; [|done].
  apply Ascii.eqb_eq in Haa as <-.
  rewrite item0_split_cons, Hac. simpl. rewrite Ascii.eqb_refl. by apply IH.
Qed.

Lemma plain_names_elem RB r :
  plain_names RB = true -> r ∈ RB ->
  Py.contains "-"%char r = false ∧ Py.startswith "ai_" r = false.
Proof.
  unfold plain_names. rewrite forallb_forall. intros H Hr.
  apply list_elem_of_In, H in Hr.
  apply andb_true_iff in Hr as [H1 H2].
  by apply negb_true_iff in H1, H2.
Qed.

Lemma longest_bound RB r : r ∈ RB -> String.length r <= longest RB.
Proof.
  induction 1 as [r RB|r r' RB _ IH]; simpl; lia.
Qed.

Lemma length_zs n tl : String.length (zs n tl) = n + String.length tl.
Proof. induction n; simpl; congruence. Qed.

Lemma item0_split_zs n tl :
  Py.item0 (Py.split "-"%char (zs n (String "-"%char tl))) = zs n EmptyString.
Proof.
  induction n as [|n IH]; [done|].
  change (zs (S n) (String "-"%char tl)) with (String "z"%char (zs n (String "-"%char tl))).
  rewrite item0_split_cons. simpl. by rewrite IH.
Qed.

Lemma contains_zs n tl : Py.contains "-"%char (zs n (String "-"%char tl)) = true.
Proof. induction n; simpl; auto. Qed.

(** Whatever the list of Replica buildings, some identifier is in no bucket. *)
Lemma some_building_in_no_bucket RB : exists b, buckets_hit RB b = 0.
Proof.
  exists (zs (S (longest RB)) "-").
  assert (Hlong : forall x, String.length x > longest RB -> Py.mem x RB = false).
  { intros x Hx. apply bool_decide_eq_false. intros Hin%longest_bound. lia. }
  unfold buckets_hit, building_in_gso, building_in_replica, building_in_hypersim,
    building_in_taskonomy.
  rewrite item0_split_zs, contains_zs.
  rewrite !Hlong by (rewrite length_zs; simpl; lia).
  reflexivity.
Qed.

End Classification.

(** C3 (as stated) fails: a hyphenated identifier whose part before the
    first hyphen is not a Replica building satisfies none of the four
    predicates. *)
Lemma unknown_hyphenated_building_in_no_bucket :
  buckets_hit sample_replica_buildings "unknown-scene" = 0.
Proof. reflexivity. Qed.

(** C3 (amended): provided no Replica building name contains a hyphen or
    starts with [ai_], every identifier satisfies exactly one of the four
    predicates, except the identifiers that contain a hyphen, do not start
    with [ai_] and whose part before the first hyphen is not a Replica
    building: those satisfy none.  In particular no identifier satisfies two
    of them. *)
Theorem building_buckets_partition (REPLICA_BUILDINGS : list string) (building : string) :
  plain_names REPLICA_BUILDINGS = true ->
  buckets_hit REPLICA_BUILDINGS building
  = if Py.contains "-"%char building
       && negb (Py.startswith "ai_" building)
       && negb (Py.mem (Py.item0 (Py.split "-"%char building)) REPLICA_BUILDINGS)
    then 0 else 1.
Proof.
  intros Hplain.
  unfold buckets_hit, building_in_gso, building_in_replica, building_in_hypersim,
    building_in_taskonomy.
  destruct (Py.mem building REPLICA_BUILDINGS) eqn:Hr.
  - apply mem_true in Hr.
    destruct (plain_names_elem _ _ Hplain Hr) as [-> ->]. reflexivity.
  - destruct (Py.startswith "ai_" building) eqn:Hh.
    + destruct (Py.mem (Py.item0 (Py.split "-"%char building)) REPLICA_BUILDINGS) eqn:Hg.
      * apply mem_true in Hg.
        destruct (plain_names_elem _ _ Hplain Hg) as [_ Hno].
        rewrite (startswith_item0 "-"%char "ai_" building) in Hno; done.
      * by destruct (Py.contains "-"%char building).
    + destruct (Py.contains "-"%char building),
        (Py.mem (Py.item0 (Py.split "-"%char building)) REPLICA_BUILDINGS); reflexivity.
Qed.

Lemma building_buckets_partition_witness :
  plain_names sample_replica_buildings = true
  ∧ buckets_hit sample_replica_buildings "frl_apartment_0-chair"
    = if Py.contains "-"%char "frl_apartment_0-chair"
         && negb (Py.startswith "ai_" "frl_apartment_0-chair")
         && negb (Py.mem (Py.item0 (Py.split "-"%char "frl_apartment_0-chair"))
                    sample_replica_buildings)
      then 0 else 1.
Proof.
  split; [reflexivity|].
  apply (building_buckets_partition sample_replica_buildings "frl_apartment_0-chair").
  reflexivity.
Defined.

(** ** Valid-mask construction *)

Section ValidMask.

Lemma Qmax_cases x y : Qmax x y = x ∨ Qmax x y = y.
Proof.
  unfold Qmax, GenericMinMax.gmax. destruct (x ?= y)%Q; auto.
Qed.


Lemma foldl_Qmax_in a l : foldl Qmax a l = a ∨ foldl Qmax a l ∈ l.
Proof.
  revert a. induction l as [|y l IH]; intros a; simpl; [by left|].
  destruct (IH (Qmax a y)) as [H|H].
  - rewrite H. destruct (Qmax_cases a y) as [E|E]; rewrite E;
      [by left|right; apply elem_of_cons; by left].
  - right. apply elem_of_cons. by right.
Qed.


Lemma maximum_in l : l ≠ [] -> F.maximum l ∈ l.
Proof.
  destruct l as [|a l]; [done|]. intros _. simpl.
  destruct (foldl_Qmax_in a l) as [-> |H]; apply elem_of_cons; [by left|by right].
Qed.

Lemma elem_of_window k i j y x :
  (y, x) ∈ F.window k i j <-> (i * k <= y < i * k + k) ∧ (j * k <= x < j * k + k).
Proof.
  unfold F.window. rewrite list_elem_of_bind. split.
  - intros (y' & Hx & Hy). apply list_elem_of_fmap in Hx as (x' & [= -> ->] & Hx).
    apply elem_of_seq in Hx, Hy. lia.
  - intros [Hy Hx]. exists y. split; [|apply elem_of_seq; lia].
    apply list_elem_of_fmap. exists x. split; [done|apply elem_of_seq; lia].
Qed.

Lemma window_not_nil k i j : k ≠ 0 -> F.window k i j ≠ [].
Proof.
  intros Hk Hnil.
  assert (H : (i * k, j * k) ∈ F.window k i j) by (apply elem_of_window; lia).
  rewrite Hnil in H. by apply elem_of_nil in H.
Qed.









Lemma make_valid_mask_4d s np m n c h w k :
  shape m = [n; c; h; w] -> c ≠ 0 -> k ≠ 0 -> h / k ≠ 0 -> w / k ≠ 0 -> s ≠ 0 ->
  exists v, make_valid_mask s np m k = Some v
    ∧ shape v = [n; c; s; s]
    ∧ forall b ch y x, data v [b; ch; y; x] = Qeq_bool (pooled m k h w s b ch y x) 0.
Proof.
  intros Hsh Hc Hk Hh Hw Hs. unfold make_valid_mask.
  rewrite !Hsh.
  rewrite (bool_decide_eq_false_2 (length [n; c; h; w] = 3)) by done.
  rewrite !Hsh.
  rewrite (bool_decide_eq_false_2 (length [n; c; h; w] = 5)) by done.
  unfold F.max_pool2d, F.interpolate_nearest. cbn [mbind option_bind T.map shape].
  rewrite Hsh.
  rewrite bool_decide_eq_true_2 by done. cbn [mbind option_bind T.map shape].
  rewrite bool_decide_eq_true_2 by (repeat split; done).
  cbn [mbind option_bind T.map shape].
  eexists. split; [reflexivity|]. split; [reflexivity|].
  intros b ch y x. reflexivity.
Qed.

Lemma elem_of_indices sh i : Forall2 lt i sh -> i ∈ T.indices sh.
Proof.
  induction 1 as [|x n i sh Hx _ IH]; simpl.
  - apply list_elem_of_singleton. done.
  - apply list_elem_of_bind. exists x. split; [|apply elem_of_seq; lia].
    apply list_elem_of_fmap. by exists i.
Qed.

Lemma all_elim {A} (p : A -> bool) t i :
  T.all p t = true -> i ∈ T.indices (shape t) -> p (data t i) = true.
Proof.
  unfold T.all. rewrite forallb_forall. intros H Hi.
  by apply list_elem_of_In, H in Hi.
Qed.






End ValidMask.


(** Rows and columns beyond the last full window are dropped by the pooling:
    an invalid corner pixel becomes valid when the pool size grows from 1
    to 3 on a 4×4 mask. *)
Example dropped_border_becomes_valid :
  valid_at 4 1 mask_corner_4 1 [0; 0; 3; 3] = false
  ∧ valid_at 4 1 mask_corner_4 3 [0; 0; 3; 3] = true.
Proof. split; vm_compute; reflexivity. Qed.

(** Divisibility of the pool sizes does not help where the single-precision
    index is rounded: on an 82×82 mask whose only invalid pixel is (41, 0),
    that pixel is read from pooled row 0 for pool size 41 (the scale 2/82 is
    rounded down), so it is valid with pool size 41 and invalid with pool
    size 1. *)
Example rounded_index_marks_more_pixels_valid :
  F.nearest_index 2 82 41 = 0
  ∧ valid_at 82 1 mask_hole_82 41 [0; 0; 41; 0] = true
  ∧ valid_at 82 1 mask_hole_82 1 [0; 0; 41; 0] = false.
Proof. repeat split; vm_compute; reflexivity. Qed.



(** ** Shared step *)

Section SharedStepFacts.

Variables image_size num_positive : nat.
Variable forward : tensor Q -> option predictions.
Variable masked_l1_loss : tensor Q -> tensor Q -> tensor bool -> option scalar.
Variable nll : list Q -> Z -> Q.

Lemma clamp_bounds x : (0 <= clamp 0 1 x <= 1)%Q.
Proof.
  unfold clamp. split.
  - apply Q.min_glb; [apply Q.le_max_r|done].
  - apply Q.le_min_r.
Qed.


Lemma write_last_read {A} c (v t : tensor A) i :
  data (T.write_last c v t) (i ++ [c]) = data v i.
Proof.
  unfold T.write_last. simpl.
  rewrite bool_decide_eq_true_2 by apply last_snoc.
  by rewrite removelast_last.
Qed.

(** For an index inside a shape, broadcasting from that shape reads the
    entry at the same index. *)
Lemma broadcast_index_same sh i : Forall2 lt i sh -> T.broadcast_index sh i = i.
Proof.
  intros H. unfold T.broadcast_index.
  rewrite (Forall2_length _ _ _ H), Nat.sub_diag, drop_0.
  induction H as [|j s i sh Hj _ IH]; [done|]. cbn [base.zip_with].
  rewrite IH. destruct (Nat.eqb_spec s 1); [f_equal; lia|done].
Qed.

(** The labels before the shift, when their preparation does not raise. *)
Lemma labels_before_shift_Some semantic mask before :
  labels_before_shift semantic mask = Some before ->
  has_channels 4 semantic = true
  ∧ T.broadcastable (shape mask) (removelast (shape semantic)) = true
  ∧ shape before = removelast (shape semantic)
  ∧ forall i,
      data before i
      = wrap64 (data (zero_background semantic (T.select_last 0 semantic)) i
                * Z.b2z (data mask (T.broadcast_index (shape mask) i))).
Proof.
  unfold labels_before_shift, mask_labels.
  destruct (has_channels 4 semantic); [|done].
  change (shape (zero_background semantic (T.select_last 0 semantic)))
    with (removelast (shape semantic)).
  destruct (T.broadcastable _ _); [|done].
  intros [= <-]. done.
Qed.

(** A pure-white pixel is labelled 0 and stays 0 under the mask. *)
Lemma white_label_zero semantic mask before i :
  labels_before_shift semantic mask = Some before ->
  data semantic (i ++ [0]) = 255%Z -> data semantic (i ++ [1]) = 255%Z ->
  data semantic (i ++ [2]) = 255%Z ->
  data before i = 0%Z.
Proof.
  intros (_ & _ & _ & Hd)%labels_before_shift_Some H0 H1 H2. rewrite Hd.
  unfold zero_background, white. simpl. rewrite H0, H1, H2. simpl. reflexivity.
Qed.

(** A pixel outside the valid mask is labelled 0, whatever its raw label. *)
Lemma masked_label_zero semantic mask before i :
  labels_before_shift semantic mask = Some before ->
  data mask (T.broadcast_index (shape mask) i) = false -> data before i = 0%Z.
Proof.
  intros (_ & _ & _ & Hd)%labels_before_shift_Some Hm. rewrite Hd, Hm.
  simpl. by rewrite Z.mul_0_r.
Qed.

Lemma shift_zero before i :
  data before i = 0%Z ->
  data (shift_labels before) i = (-1)%Z
  ∧ nn.counted (-1) (shift_labels before) i = false.
Proof.
  intros H. unfold nn.counted, shift_labels, T.map.
  cbn [data]. rewrite H. split; reflexivity.
Qed.

(** The scores of a counted pixel do not involve an ignored pixel. *)
Lemma scores_agree input input' j i :
  shape input = shape input' ->
  (forall q, nn.pixel_of q ≠ i -> data input q = data input' q) ->
  j ≠ i -> nn.scores input j = nn.scores input' j.
Proof.
  intros Hsh Hag Hji. unfold nn.scores. rewrite <- Hsh.
  destruct j as [|b r]; [done|].
  destruct (shape input) as [|? [|c ?]]; [done|done|].
  apply list_fmap_ext. intros _ k _. by apply Hag.
Qed.

(** Changing the predictions at an ignored pixel leaves the loss as it is,
    error or value. *)
Lemma CrossEntropyLoss_ignores ignore_index input input' target i :
  nn.counted ignore_index target i = false ->
  shape input = shape input' ->
  (forall q, nn.pixel_of q ≠ i -> data input q = data input' q) ->
  nn.CrossEntropyLoss ignore_index nll input target
  = nn.CrossEntropyLoss ignore_index nll input' target.
Proof.
  intros Hi Hsh Hag. unfold nn.CrossEntropyLoss, nn.classes. rewrite <- Hsh.
  destruct (shape input) as [|b [|c rest]] eqn:E; [done|done|].
  case_bool_decide; [|done]. cbn [mbind option_bind].
  destruct (forallb _ _); [|done]. do 2 f_equal.
  apply list_fmap_ext. intros _ j Hj%list_elem_of_lookup_2.
  apply list_elem_of_filter in Hj as [Hj _].
  f_equal. apply (scores_agree _ _ _ i); [congruence|done|congruence].
Qed.

(** What a call that returns has computed. *)
Lemma shared_step_Some batch train step_results semantic' :
  shared_step image_size num_positive forward masked_l1_loss nll batch train
  = Some (step_results, semantic') ->
  exists valid labels preds normal_loss semantic_loss,
    make_valid_mask image_size num_positive (mask_valid batch) default_max_pool_size
    = Some valid
    ∧ labels_after_shift (segment_semantic batch) (T.squeeze1 valid) = Some labels
    ∧ forward (rgb batch) = Some preds
    ∧ masked_l1_loss (T.map (clamp 0 1) (preds_normal preds)) (normal batch)
        (T.repeat_interleave_3_1 valid) = Some normal_loss
    ∧ nn.CrossEntropyLoss (-1) nll (preds_segment_semantic preds) labels
      = Some semantic_loss
    ∧ step_results
      = <["loss" := sadd (smul (Num 10) normal_loss) semantic_loss]>
          (<["semantic_loss" := semantic_loss]> (<["normal_loss" := normal_loss]> ∅))
    ∧ semantic' = T.write_last 0 labels (segment_semantic batch).
Proof.
  unfold shared_step.
  destruct (make_valid_mask _ _ _ _) as [valid|] eqn:Hv; [|done].
  cbn [mbind option_bind].
  destruct (labels_after_shift _ _) as [labels|] eqn:Hl; [|done].
  cbn [mbind option_bind].
  destruct (forward _) as [preds|] eqn:Hp; [|done]. cbn [mbind option_bind].
  destruct (masked_l1_loss _ _ _) as [nl|] eqn:Hnl; [|done]. cbn [mbind option_bind].
  destruct (nn.CrossEntropyLoss _ _ _ _) as [sl|] eqn:Hsl; [|done].
  cbn [mbind option_bind]. intros [= <- <-].
  exists valid, labels, preds, nl, sl. done.
Qed.


End SharedStepFacts.



(** C2: at a pixel whose three channels are 255, the label of [shared_step]
    is 0 before the shift and -1 after it; the pixel is not counted by the
    cross entropy (ignore index -1), and the semantic loss does not depend
    on the scores predicted at that pixel; a call that returns has written
    -1 back to the batch at that pixel and reports the cross entropy of
    these labels as the semantic loss. *)
Theorem white_pixel_excluded (image_size num_positive : nat)
    (forward : tensor Q -> option predictions)
    (masked_l1_loss : tensor Q -> tensor Q -> tensor bool -> option scalar)
    (nll : list Q -> Z -> Q) (batch : positive) (train : bool)
    (valid : tensor bool) (before : tensor Z) (i : list nat) :
  make_valid_mask image_size num_positive (mask_valid batch) default_max_pool_size
  = Some valid ->
  labels_before_shift (segment_semantic batch) (T.squeeze1 valid) = Some before ->
  data (segment_semantic batch) (i ++ [0]) = 255%Z ->
  data (segment_semantic batch) (i ++ [1]) = 255%Z ->
  data (segment_semantic batch) (i ++ [2]) = 255%Z ->
  let labels := shift_labels before in
  data before i = 0%Z
  ∧ data labels i = (-1)%Z
  ∧ nn.counted (-1) labels i = false
  ∧ (forall step_results semantic',
       shared_step image_size num_positive forward masked_l1_loss nll batch train
       = Some (step_results, semantic') ->
       data semantic' (i ++ [0]) = (-1)%Z
       ∧ exists preds, forward (rgb batch) = Some preds
           ∧ step_results !! "semantic_loss"
             = nn.CrossEntropyLoss (-1) nll (preds_segment_semantic preds) labels)
  ∧ (forall input input',
       shape input = shape input' ->
       (forall q, nn.pixel_of q ≠ i -> data input q = data input' q) ->
       nn.CrossEntropyLoss (-1) nll input labels
       = nn.CrossEntropyLoss (-1) nll input' labels).
Proof.
  intros Hvalid Hbefore H0 H1 H2 labels. subst labels.
  pose proof (white_label_zero _ _ _ i Hbefore H0 H1 H2) as Hzero.
  destruct (shift_zero _ _ Hzero) as [Hm1 Hcnt].
  split; [done|]. split; [done|]. split; [done|]. split.
  - intros res semantic' Hstep.
    destruct (shared_step_Some _ _ _ _ _ _ _ _ _ Hstep)
      as (valid' & labels' & preds & nl & sl & Hv & Hl & Hp & _ & Hsl & -> & ->).
    rewrite Hvalid in Hv. injection Hv as <-.
    unfold labels_after_shift in Hl. rewrite Hbefore in Hl. injection Hl as <-.
    split; [by rewrite write_last_read|].
    exists preds. split; [done|]. rewrite Hsl. by simplify_map_eq.
  - intros input input' Hsh Hag. by apply (CrossEntropyLoss_ignores _ _ _ _ _ i).
Qed.

Lemma white_pixel_excluded_witness :
  (make_valid_mask 8 1 (mask_valid tiny_batch) default_max_pool_size = Some tiny_mask_valid
   ∧ labels_before_shift (segment_semantic tiny_batch) (T.squeeze1 tiny_mask_valid)
     = Some tiny_labels_before
   ∧ data (segment_semantic tiny_batch) ([0; 0; 0] ++ [0]) = 255%Z
   ∧ data (segment_semantic tiny_batch) ([0; 0; 0] ++ [1]) = 255%Z
   ∧ data (segment_semantic tiny_batch) ([0; 0; 0] ++ [2]) = 255%Z)
  ∧ data (shift_labels tiny_labels_before) [0; 0; 0] = (-1)%Z.
Proof.
  split; [repeat split; reflexivity|].
  exact (proj1 (proj2
    (white_pixel_excluded 8 1 tiny_forward tiny_l1 tiny_nll tiny_batch true
       tiny_mask_valid tiny_labels_before [0; 0; 0]
       eq_refl eq_refl eq_refl eq_refl eq_refl))).
Defined.

(** C10: at a pixel whose entry of the valid mask of [shared_step] is
    false, the final label is -1 whatever the raw label is (non-negative or
    not); the pixel is not counted by the cross entropy and the semantic
    loss does not depend on the scores predicted there; a call that returns
    has written -1 back to the batch at that pixel and reports the cross
    entropy of these labels as the semantic loss.  The mask entry of a pixel
    is the one that broadcasting pairs with it: the entry at the same index
    for an index inside the shape of the mask. *)
Theorem invalid_pixel_excluded (image_size num_positive : nat)
    (forward : tensor Q -> option predictions)
    (masked_l1_loss : tensor Q -> tensor Q -> tensor bool -> option scalar)
    (nll : list Q -> Z -> Q) (batch : positive) (train : bool)
    (valid : tensor bool) (before : tensor Z) (i : list nat) :
  make_valid_mask image_size num_positive (mask_valid batch) default_max_pool_size
  = Some valid ->
  labels_before_shift (segment_semantic batch) (T.squeeze1 valid) = Some before ->
  data (T.squeeze1 valid) (T.broadcast_index (shape (T.squeeze1 valid)) i) = false ->
  let labels := shift_labels before in
  data labels i = (-1)%Z
  ∧ nn.counted (-1) labels i = false
  ∧ (forall step_results semantic',
       shared_step image_size num_positive forward masked_l1_loss nll batch train
       = Some (step_results, semantic') ->
       data semantic' (i ++ [0]) = (-1)%Z
       ∧ exists preds, forward (rgb batch) = Some preds
           ∧ step_results !! "semantic_loss"
             = nn.CrossEntropyLoss (-1) nll (preds_segment_semantic preds) labels)
  ∧ (forall input input',
       shape input = shape input' ->
       (forall q, nn.pixel_of q ≠ i -> data input q = data input' q) ->
       nn.CrossEntropyLoss (-1) nll input labels
       = nn.CrossEntropyLoss (-1) nll input' labels)
  ∧ (Forall2 lt i (shape (T.squeeze1 valid)) ->
     T.broadcast_index (shape (T.squeeze1 valid)) i = i).
Proof.
  intros Hvalid Hbefore Hmask labels. subst labels.
  pose proof (masked_label_zero _ _ _ i Hbefore Hmask) as Hzero.
  destruct (shift_zero _ _ Hzero) as [Hm1 Hcnt].
  split; [done|]. split; [done|]. split; [|split].
  - intros res semantic' Hstep.
    destruct (shared_step_Some _ _ _ _ _ _ _ _ _ Hstep)
      as (valid' & labels' & preds & nl & sl & Hv & Hl & Hp & _ & Hsl & -> & ->).
    rewrite Hvalid in Hv. injection Hv as <-.
    unfold labels_after_shift in Hl. rewrite Hbefore in Hl. injection Hl as <-.
    split; [by rewrite write_last_read|].
    exists preds. split; [done|]. rewrite Hsl. by simplify_map_eq.
  - intros input input' Hsh Hag. by apply (CrossEntropyLoss_ignores _ _ _ _ _ i).
  - apply broadcast_index_same.
Qed.

Lemma invalid_pixel_excluded_witness :
  (make_valid_mask 8 1 (mask_valid tiny_batch) default_max_pool_size = Some tiny_mask_valid
   ∧ labels_before_shift (segment_semantic tiny_batch) (T.squeeze1 tiny_mask_valid)
     = Some tiny_labels_before
   ∧ data (T.squeeze1 tiny_mask_valid)
          (T.broadcast_index (shape (T.squeeze1 tiny_mask_valid)) [0; 5; 6]) = false
   ∧ data (segment_semantic tiny_batch) [0; 5; 6; 0] = 3%Z)
  ∧ data (shift_labels tiny_labels_before) [0; 5; 6] = (-1)%Z.
Proof.
  split; [repeat split; reflexivity|].
  exact (proj1
    (invalid_pixel_excluded 8 1 tiny_forward tiny_l1 tiny_nll tiny_batch true
       tiny_mask_valid tiny_labels_before [0; 5; 6] eq_refl eq_refl eq_refl)).
Defined.

(** ** Validation-sample curation *)

Section DefaultDict.
Context {A : Type}.
Implicit Types (m : gmap string (list A)) (k : string).

Lemma get_touch k k' m : dd.get k (dd.touch k' m) = dd.get k m.
Proof.
  unfold dd.get, dd.touch. destruct (m !! k') eqn:E; [done|].
  destruct (decide (k' = k)) as [->|Hne].
  - by rewrite lookup_insert_eq, E.
  - by rewrite lookup_insert_ne.
Qed.

Lemma get_append_eq k x m : dd.get k (dd.append k x m) = dd.get k m ++ [x].
Proof. unfold dd.append. unfold dd.get at 1. by rewrite lookup_insert_eq. Qed.

Lemma get_append_ne k k' x m : k' ≠ k -> dd.get k (dd.append k' x m) = dd.get k m.
Proof. intros Hne. unfold dd.append, dd.get. by rewrite lookup_insert_ne. Qed.

End DefaultDict.

Lemma get_guard_reads k m : dd.get k (guard_reads m) = dd.get k m.
Proof. unfold guard_reads. by rewrite !get_touch. Qed.

Lemma accepted_guard_reads m : accepted (guard_reads m) = accepted m.
Proof. unfold accepted. by rewrite !get_guard_reads. Qed.

Lemma within_quotas_guard_reads m : within_quotas (guard_reads m) <-> within_quotas m.
Proof. unfold within_quotas. by rewrite !get_guard_reads. Qed.

Lemma sizes_append b x m : sizes (dd.append (key b) x m) = bump b (sizes m).
Proof.
  unfold sizes. destruct b; simpl;
    rewrite get_append_eq, !get_append_ne by done;
    by rewrite length_app.
Qed.

Section CurationFacts.

Variable RB : list string.
Variable valset : list positive.

Lemma loop_body_verdict st r :
  loop_body RB valset st r
  = idx ← randint0 (length valset) r;
    example ← valset !! idx;
    Some (match verdict RB (building example) (sizes (val_imgs st)) (frls st) with
          | Some k => accept (building example) idx k st
          | None => st
          end).
Proof.
  unfold loop_body. destruct (randint0 (length valset) r) as [idx|]; [|done].
  cbn [mbind option_bind]. destruct (valset !! idx) as [e|]; [|done].
  cbn [mbind option_bind]. unfold verdict, sizes, accept.
  destruct (building_in_hypersim (building e) && _); [done|].
  destruct (building_in_replica RB (building e) && _).
  { destruct (Py.startswith "frl" (building e)); simpl; [|done].
    by destruct (15 <? frls st). }
  destruct (building_in_gso RB (building e) && _); [done|].
  by destruct (building_in_taskonomy RB (building e) && _).
Qed.

Lemma accepted_total m : accepted m = total (sizes m).
Proof. reflexivity. Qed.

Lemma within_quotas_sizes m : within_quotas m <-> in_quota (sizes m).
Proof. reflexivity. Qed.

Lemma verdict_in_quota b s f k :
  verdict RB b s f = Some k -> in_quota s ->
  in_quota (bump k s) ∧ total (bump k s) = total s + 1.
Proof.
  destruct s as [[[h r] g] t]. unfold verdict, in_quota, total, bump.
  intros H Hq.
  repeat match type of H with
         | (if ?c && (?x <? ?y) then _ else _) = _ =>
             destruct c; simpl in H; [destruct (Nat.ltb_spec x y)|]; simpl in H
         | (if ?c then _ else _) = _ => destruct c; simpl in H
         end; try discriminate; injection H as <-; lia.
Qed.

(** Quotas and the target hold in every state the loop passes through. *)
Lemma reachable_in_quota st :
  reachable RB valset st ->
  within_quotas (val_imgs st) ∧ accepted (val_imgs st) <= 95.
Proof.
  induction 1 as [|st r st' _ [IHq IHa] Hg Hb].
  - simpl. rewrite within_quotas_guard_reads, accepted_guard_reads.
    unfold within_quotas, accepted, dd.get. rewrite !lookup_empty. simpl. lia.
  - simpl. rewrite within_quotas_guard_reads, accepted_guard_reads.
    rewrite loop_body_verdict in Hb.
    destruct (randint0 (length valset) r) as [idx|]; [|done].
    cbn [mbind option_bind] in Hb. destruct (valset !! idx) as [e|]; [|done].
    cbn [mbind option_bind] in Hb.
    unfold loop_guard in Hg. apply Nat.ltb_lt in Hg.
    destruct (verdict RB (building e) (sizes (val_imgs st)) (frls st)) as [k|] eqn:Hv;
      injection Hb as <-.
    + apply within_quotas_sizes in IHq.
      destruct (verdict_in_quota _ _ _ _ Hv IHq) as [Hq Ht].
      unfold accept. cbn [val_imgs].
      change (in_quota (sizes (dd.append (key k) idx (val_imgs st)))
              ∧ total (sizes (dd.append (key k) idx (val_imgs st))) <= 95).
      rewrite sizes_append. rewrite accepted_total in Hg. split; [done|lia].
    + split; [done|lia].
Qed.

End CurationFacts.

Section CurationRuns.

Variable RB : list string.
Variable valset : list positive.

Lemma sizes_guard_reads m : sizes (guard_reads m) = sizes m.
Proof. unfold sizes. by rewrite !get_guard_reads. Qed.

Lemma loop_body_effect st r st' :
  loop_body RB valset st r = Some st' ->
  exists idx e,
    randint0 (length valset) r = Some idx ∧ valset !! idx = Some e
    ∧ match verdict RB (building e) (sizes (val_imgs st)) (frls st) with
      | Some k => st' = accept (building e) idx k st
      | None => st' = st
      end.
Proof.
  rewrite loop_body_verdict. intros Hb.
  destruct (randint0 (length valset) r) as [idx|]; [|done].
  cbn [mbind option_bind] in Hb. destruct (valset !! idx) as [e|] eqn:He; [|done].
  cbn [mbind option_bind] in Hb. exists idx, e. split; [done|]. split; [done|].
  destruct (verdict _ _ _ _); by injection Hb as <-.
Qed.

(** On a non-empty pool the body never raises. *)
Lemma loop_body_total st r :
  valset ≠ [] -> is_Some (loop_body RB valset st r).
Proof.
  intros Hne. rewrite loop_body_verdict. unfold randint0.
  destruct (Nat.eqb_spec (length valset) 0) as [H0|H0].
  { by apply nil_length_inv in H0. }
  cbn [mbind option_bind].
  destruct (lookup_lt_is_Some_2 valset (r mod length valset)) as [e ->];
    [by apply Nat.mod_upper_bound|].
  cbn [mbind option_bind]. eauto.
Qed.

Lemma select_loop_reachable draws st :
  reachable RB valset (at_guard st) ->
  match select_loop RB valset draws st with
  | Returned m => exists st', reachable RB valset st' ∧ loop_guard st' = false
                              ∧ val_imgs st' = m
  | Spinning st' => reachable RB valset st' ∧ loop_guard st' = true
  | Raised => True
  end.
Proof.
  revert st. induction draws as [|r draws IH]; intros st Hr; simpl;
    fold (at_guard st); destruct (loop_guard (at_guard st)) eqn:Hg; eauto.
  destruct (loop_body RB valset (at_guard st) r) as [st'|] eqn:Hb; [|done].
  apply IH. by apply (reachable_step _ _ (at_guard st) r).
Qed.

Lemma reachable_guard st :
  reachable RB valset st ->
  loop_guard st = false <-> accepted (val_imgs st) = 95.
Proof.
  intros [_ Ha]%reachable_in_quota. unfold loop_guard.
  destruct (Nat.ltb_spec (accepted (val_imgs st)) 95); split; intros; (done || lia).
Qed.

End CurationRuns.

Section CurationTermination.

Variable RB : list string.
Variable valset : list positive.

Lemma verdict_barren b s f k :
  building_in_gso RB b = false -> building_in_taskonomy RB b = false ->
  verdict RB b s f = Some k -> k = Hypersim ∨ k = Replica.
Proof.
  destruct s as [[[h r] g] t]. unfold verdict. intros -> ->.
  destruct (building_in_hypersim b && (h <? 40)); [intros [= <-]; by left|].
  destruct (building_in_replica RB b && (r <? 25)); [|done].
  destruct (Py.startswith "frl" b && (15 <? f)); [done|]. intros [= <-]. by right.
Qed.

Lemma barren_elem e :
  barren RB valset = true -> e ∈ valset ->
  building_in_gso RB (building e) = false
  ∧ building_in_taskonomy RB (building e) = false.
Proof.
  unfold barren. rewrite forallb_forall. intros H He.
  apply list_elem_of_In, H, andb_true_iff in He as [H1 H2].
  by apply negb_true_iff in H1, H2.
Qed.

(** On a pool without GSO and Taskonomy samples at most 65 samples are ever
    accepted, so the loop never leaves its guard. *)
Lemma select_loop_spins draws st :
  valset ≠ [] -> barren RB valset = true ->
  in_quota (sizes (val_imgs st)) ->
  length (dd.get "gso" (val_imgs st)) = 0 ->
  length (dd.get "taskonomy" (val_imgs st)) = 0 ->
  exists st', select_loop RB valset draws st = Spinning st'
              ∧ accepted (val_imgs st') <= 65.
Proof.
  intros Hne Hbar. revert st.
  induction draws as [|r draws IH]; intros st Hq Hg Ht; simpl; fold (at_guard st).
  all: assert (Hacc : accepted (val_imgs (at_guard st)) <= 65).
  1,3: simpl; rewrite accepted_guard_reads;
       revert Hq Hg Ht; rewrite accepted_total; unfold sizes, in_quota, total; lia.
  all: assert (Hguard : loop_guard (at_guard st) = true)
         by (apply Nat.ltb_lt; lia); rewrite Hguard.
  { eauto. }
  destruct (loop_body_total RB valset (at_guard st) r Hne) as [st' Hb]. rewrite Hb.
  destruct (loop_body_effect _ _ _ _ _ Hb) as (idx & e & _ & He & Hv).
  apply list_elem_of_lookup_2 in He.
  destruct (barren_elem e Hbar He) as [Hgso Htask].
  unfold at_guard in Hv. cbn [val_imgs frls] in Hv. rewrite sizes_guard_reads in Hv.
  destruct (verdict RB (building e) (sizes (val_imgs st)) (frls st)) as [k|] eqn:Hk;
    subst st'.
  - destruct (verdict_in_quota _ _ _ _ _ Hk Hq) as [Hq' _].
    apply IH; unfold accept; cbn [val_imgs].
    + by rewrite sizes_append, sizes_guard_reads.
    + destruct (verdict_barren _ _ _ _ Hgso Htask Hk) as [-> | ->]; simpl;
        by rewrite get_append_ne, get_guard_reads.
    + destruct (verdict_barren _ _ _ _ Hgso Htask Hk) as [-> | ->]; simpl;
        by rewrite get_append_ne, get_guard_reads.
  - apply IH; simpl; by rewrite ?sizes_guard_reads, ?get_guard_reads.
Qed.

End CurationTermination.

Section CurationFills.

Variable RB : list string.
Variable valset : list positive.

Lemma verdict_hypersim b h r g t f :
  building_in_hypersim b = true -> h < 40 ->
  verdict RB b (h, r, g, t) f = Some Hypersim.
Proof.
  intros Hb Hh. unfold verdict. rewrite Hb.
  by destruct (Nat.ltb_spec h 40); [|lia].
Qed.

Lemma verdict_replica b h r g t f :
  plain_replica b RB = true -> r < 25 ->
  verdict RB b (h, r, g, t) f = Some Replica.
Proof.
  unfold plain_replica. intros [[Hr Hh%negb_true_iff]%andb_true_iff Hf%negb_true_iff]%andb_true_iff Hlt.
  unfold verdict. rewrite Hh, Hr, Hf. simpl.
  by destruct (Nat.ltb_spec r 25); [|lia].
Qed.

Lemma verdict_taskonomy b h r g t f :
  building_in_taskonomy RB b = true -> t < 30 ->
  verdict RB b (h, r, g, t) f = Some Taskonomy.
Proof.
  intros Hb Hlt. pose proof Hb as Hb'. unfold building_in_taskonomy in Hb'.
  apply andb_true_iff in Hb' as [[Hr%negb_true_iff Hh%negb_true_iff]%andb_true_iff Hc%negb_true_iff].
  unfold verdict, building_in_hypersim, building_in_replica, building_in_gso.
  rewrite Hh, Hr, Hc, Hb. simpl.
  by destruct (Nat.ltb_spec t 30); [|lia].
Qed.

Lemma quota_progress (P : Prop) `{Decision P} (x x' d q : nat) :
  x <= x' -> (P -> x < q -> x' = x + 1) ->
  q <= x + ((if decide P then 1 else 0) + d) -> q <= x' + d.
Proof.
  intros Hle Hhit. destruct (decide P) as [HP|_]; [|lia].
  destruct (Nat.lt_ge_cases x q) as [Hlt|Hge]; [rewrite (Hhit HP Hlt)|]; lia.
Qed.

Lemma draws_of_cons idx r draws :
  draws_of valset idx (r :: draws)
  = (if decide (randint0 (length valset) r = Some idx) then 1 else 0)
    + draws_of valset idx draws.
Proof.
  unfold draws_of. rewrite filter_cons. by destruct (decide _).
Qed.

Lemma sizes_accept b idx k st :
  sizes (val_imgs (accept b idx k st)) = bump k (sizes (val_imgs st)).
Proof. unfold accept. cbn [val_imgs]. apply sizes_append. Qed.

(** Enough draws of a Hypersim, a plain Replica and a Taskonomy sample make
    the loop return. *)
Lemma select_loop_fills ih ir it draws st :
  sample_is valset building_in_hypersim ih = true ->
  sample_is valset (fun b => plain_replica b RB) ir = true ->
  sample_is valset (building_in_taskonomy RB) it = true ->
  in_quota (sizes (val_imgs st)) -> total (sizes (val_imgs st)) <= 95 ->
  40 <= length (dd.get "hypersim" (val_imgs st)) + draws_of valset ih draws ->
  25 <= length (dd.get "replica" (val_imgs st)) + draws_of valset ir draws ->
  30 <= length (dd.get "taskonomy" (val_imgs st)) + draws_of valset it draws ->
  exists m, select_loop RB valset draws st = Returned m
            ∧ accepted m = 95 ∧ within_quotas m.
Proof.
  intros Hih Hir Hit. revert st.
  assert (Hne : valset ≠ []).
  { intros ->. unfold sample_is in Hih. by rewrite lookup_nil in Hih. }
  induction draws as [|r draws IH]; intros st Hq Htot Hh Hr Ht; simpl;
    fold (at_guard st); unfold loop_guard; cbn [at_guard val_imgs];
    rewrite accepted_guard_reads, accepted_total;
    destruct (Nat.ltb_spec (total (sizes (val_imgs st))) 95) as [Hlt|Hge].
  - exfalso. revert Hq Hlt Hh Hr Ht.
    unfold draws_of, sizes, in_quota, total. simpl. lia.
  - eexists. split; [done|].
    rewrite within_quotas_sizes, accepted_total, sizes_guard_reads. split; [lia|done].
  - destruct (loop_body_total RB valset (at_guard st) r Hne) as [st' Hb]. rewrite Hb.
    destruct (loop_body_effect _ _ _ _ _ Hb) as (idx & e & Hidx & He & Hv).
    unfold at_guard in Hv. cbn [val_imgs frls] in Hv. rewrite sizes_guard_reads in Hv.
    rewrite !draws_of_cons, Hidx in Hh, Hr, Ht.
    assert (Hsz : sizes (val_imgs st')
                  = match verdict RB (building e) (sizes (val_imgs st)) (frls st) with
                    | Some k => bump k (sizes (val_imgs st))
                    | None => sizes (val_imgs st)
                    end).
    { destruct (verdict _ _ _ _); subst st'.
      - rewrite sizes_accept. cbn [val_imgs]. by rewrite sizes_guard_reads.
      - cbn [val_imgs]. by rewrite sizes_guard_reads. }
    clear Hv Hb.
    assert (Hvh : idx = ih -> length (dd.get "hypersim" (val_imgs st)) < 40 ->
              verdict RB (building e) (sizes (val_imgs st)) (frls st) = Some Hypersim).
    { intros -> ?. unfold sample_is in Hih. rewrite He in Hih.
      by apply verdict_hypersim. }
    assert (Hvr : idx = ir -> length (dd.get "replica" (val_imgs st)) < 25 ->
              verdict RB (building e) (sizes (val_imgs st)) (frls st) = Some Replica).
    { intros -> ?. unfold sample_is in Hir. rewrite He in Hir.
      by apply verdict_replica. }
    assert (Hvt : idx = it -> length (dd.get "taskonomy" (val_imgs st)) < 30 ->
              verdict RB (building e) (sizes (val_imgs st)) (frls st) = Some Taskonomy).
    { intros -> ?. unfold sample_is in Hit. rewrite He in Hit.
      by apply verdict_taskonomy. }
    set (s := sizes (val_imgs st)) in *. set (s' := sizes (val_imgs st')) in *.
    change (length (dd.get "hypersim" (val_imgs st))) with s.1.1.1 in *.
    change (length (dd.get "replica" (val_imgs st))) with s.1.1.2 in *.
    change (length (dd.get "taskonomy" (val_imgs st))) with s.2 in *.
    assert (Hmono : s.1.1.1 <= s'.1.1.1 ∧ s.1.1.2 <= s'.1.1.2 ∧ s.2 <= s'.2).
    { rewrite Hsz. destruct s as [[[??]?]?], (verdict _ _ _ _) as [[]|]; simpl; lia. }
    assert (Hhit_h : Some idx = Some ih -> s.1.1.1 < 40 -> s'.1.1.1 = s.1.1.1 + 1).
    { intros [= E1] E2. rewrite Hsz, (Hvh E1 E2). by destruct s as [[[??]?]?]. }
    assert (Hhit_r : Some idx = Some ir -> s.1.1.2 < 25 -> s'.1.1.2 = s.1.1.2 + 1).
    { intros [= E1] E2. rewrite Hsz, (Hvr E1 E2). by destruct s as [[[??]?]?]. }
    assert (Hhit_t : Some idx = Some it -> s.2 < 30 -> s'.2 = s.2 + 1).
    { intros [= E1] E2. rewrite Hsz, (Hvt E1 E2). by destruct s as [[[??]?]?]. }
    assert (Hstep : in_quota s' ∧ total s' <= 95).
    { rewrite Hsz.
      destruct (verdict RB (building e) s (frls st)) as [k|] eqn:Hk; [|split; [done|lia]].
      destruct (verdict_in_quota _ _ _ _ _ Hk Hq) as [Hq' Ht']. split; [done|lia]. }
    destruct Hstep as [Hq' Htot'], Hmono as (Hm1 & Hm2 & Hm3).
    apply IH; [done|done|..].
    + change (length (dd.get "hypersim" (val_imgs st'))) with s'.1.1.1.
      by apply (quota_progress (Some idx = Some ih) s.1.1.1).
    + change (length (dd.get "replica" (val_imgs st'))) with s'.1.1.2.
      by apply (quota_progress (Some idx = Some ir) s.1.1.2).
    + change (length (dd.get "taskonomy" (val_imgs st'))) with s'.2.
      by apply (quota_progress (Some idx = Some it) s.2).
  - eexists. split; [done|].
    rewrite within_quotas_sizes, accepted_total, sizes_guard_reads. split; [lia|done].
Qed.

End CurationFills.

Lemma get_empty {A} k : dd.get k (∅ : gmap string (list A)) = [].
Proof. unfold dd.get. by rewrite lookup_empty. Qed.

Lemma sizes_empty : sizes ∅ = (0, 0, 0, 0).
Proof. unfold sizes. by rewrite !get_empty. Qed.

Section FrlQuota.

Variable RB : list string.
Variable valset : list positive.

Lemma frl_accepted_guard_reads m :
  frl_accepted valset (guard_reads m) = frl_accepted valset m.
Proof. unfold frl_accepted. by rewrite get_guard_reads. Qed.

Lemma frl_accepted_accept e idx k st :
  valset !! idx = Some e ->
  frl_accepted valset (val_imgs (accept (building e) idx k st))
  = frl_accepted valset (val_imgs st)
    + match k with
      | Replica => if Py.startswith "frl" (building e) then 1 else 0
      | _ => 0
      end.
Proof.
  intros He. unfold frl_accepted, accept. cbn [val_imgs].
  destruct k; cbn [key]; [rewrite get_append_ne by done; lia| |
                          rewrite get_append_ne by done; lia..].
  rewrite get_append_eq, filter_app, length_app. f_equal.
  rewrite filter_cons, filter_nil. unfold is_frl. rewrite He.
  by destruct (Py.startswith "frl" (building e)).
Qed.

Lemma verdict_replica_frl b s f :
  verdict RB b s f = Some Replica -> Py.startswith "frl" b = true -> f <= 15.
Proof.
  destruct s as [[[h r] g] t]. unfold verdict. intros H Hf. rewrite Hf in H.
  destruct (building_in_hypersim b && (h <? 40)); [done|].
  destruct (building_in_replica RB b && (r <? 25)).
  - simpl in H. destruct (Nat.ltb_spec 15 f); [done|lia].
  - destruct (building_in_gso RB b && (g <? 20)); [done|].
    by destruct (building_in_taskonomy RB b && (t <? 30)).
Qed.

(** The counter [frls] counts the accepted [frl] samples, and the check
    [frls > 15] lets it reach 16. *)
Lemma reachable_frl_bound st :
  reachable RB valset st ->
  frl_accepted valset (val_imgs st) = frls st ∧ frls st <= 16.
Proof.
  induction 1 as [|st r st' _ [IHc IHb] Hg Hb]; cbn [val_imgs frls].
  - split; [|lia]. rewrite frl_accepted_guard_reads.
    unfold frl_accepted. by rewrite get_empty.
  - rewrite frl_accepted_guard_reads.
    destruct (loop_body_effect _ _ _ _ _ Hb) as (idx & e & _ & He & Hv).
    destruct (verdict RB (building e) (sizes (val_imgs st)) (frls st)) as [k|] eqn:Hk;
      subst st'; [|done].
    rewrite (frl_accepted_accept _ _ _ _ He). unfold accept. cbn [frls].
    destruct k; try (split; lia).
    destruct (Py.startswith "frl" (building e)) eqn:Hf; [|split; lia].
    pose proof (verdict_replica_frl _ _ _ Hk Hf). split; lia.
Qed.

End FrlQuota.

(** The run on the diverse pool returns with 40 Hypersim, 25 Replica, 20 GSO
    and 10 Taskonomy samples. *)
Lemma diverse_run_sizes :
  returned_sizes (select_val_samples_for_datasets sample_replica_buildings
                    diverse_pool diverse_draws)
  = Some (40, 25, 20, 10).
Proof. vm_compute. reflexivity. Qed.

(** C4 (as stated) fails: on a pool with samples of all four datasets the
    loop returns with 95 accepted samples (40 Hypersim, 25 Replica, 20 GSO,
    10 Taskonomy), below the sum 115 of the four quotas and with the
    Taskonomy bucket at a third of its quota. *)
Lemma loop_returns_before_quota_sum :
  returned_sizes (select_val_samples_for_datasets sample_replica_buildings
                    diverse_pool diverse_draws)
  = Some (40, 25, 20, 10)
  ∧ 40 + 25 + 20 + 10 = 95
  ∧ 95 < 40 + 25 + 20 + 30.
Proof. split; [apply diverse_run_sizes|lia]. Qed.

(** C4 (amended): in every state the loop passes through, no bucket exceeds
    its quota (hypersim 40, replica 25, gso 20, taskonomy 30) and at most 95
    samples are accepted; and on a pool with a Hypersim sample, a Replica
    sample that is neither a Hypersim scene nor an [frl] one, and a
    Taskonomy sample, any sequence of draws that selects them at least 40,
    25 and 30 times makes the loop return, with exactly 95 accepted samples
    (40 + 25 + 30, not the sum 115 of the four quotas). *)
Theorem curation_within_quotas_and_returns (REPLICA_BUILDINGS : list string)
    (valset : list positive) :
  (forall st, reachable REPLICA_BUILDINGS valset st ->
     within_quotas (val_imgs st) ∧ accepted (val_imgs st) <= 95)
  ∧ (forall ih ir it draws,
       sample_is valset building_in_hypersim ih = true ->
       sample_is valset (fun b => plain_replica b REPLICA_BUILDINGS) ir = true ->
       sample_is valset (building_in_taskonomy REPLICA_BUILDINGS) it = true ->
       40 <= draws_of valset ih draws ->
       25 <= draws_of valset ir draws ->
       30 <= draws_of valset it draws ->
       exists m, select_val_samples_for_datasets REPLICA_BUILDINGS valset draws = Returned m
                 ∧ accepted m = 95 ∧ within_quotas m).
Proof.
  split; [apply reachable_in_quota|].
  intros ih ir it draws Hh Hr Ht Dh Dr Dt.
  apply (select_loop_fills _ _ ih ir it); cbn [val_imgs];
    rewrite ?sizes_empty, ?get_empty; simpl; (done || lia).
Qed.

Lemma curation_within_quotas_and_returns_witness :
  (sample_is diverse_pool building_in_hypersim 0 = true
   ∧ sample_is diverse_pool (fun b => plain_replica b sample_replica_buildings) 1 = true
   ∧ sample_is diverse_pool (building_in_taskonomy sample_replica_buildings) 2 = true
   ∧ 40 <= draws_of diverse_pool 0 diverse_draws
   ∧ 25 <= draws_of diverse_pool 1 diverse_draws
   ∧ 30 <= draws_of diverse_pool 2 diverse_draws)
  ∧ exists m, select_val_samples_for_datasets sample_replica_buildings diverse_pool
                diverse_draws = Returned m
              ∧ accepted m = 95 ∧ within_quotas m.
Proof.
  split; [repeat split; vm_compute; (reflexivity || lia)|].
  apply (proj2 (curation_within_quotas_and_returns sample_replica_buildings diverse_pool)
           0 1 2 diverse_draws); vm_compute; (reflexivity || lia).
Defined.

(** C5: in every state the loop passes through, the loop guard is false
    exactly when 95 samples are accepted, so a run that returns returns with
    exactly 95; and there is a non-empty pool of fewer than 95 samples (a
    single Hypersim sample) on which, whatever the Replica list and however
    many draws are made, the loop neither returns nor raises: its guard
    still holds.  Some runs do return. *)
Theorem curation_loop_stops_at_95 :
  (forall REPLICA_BUILDINGS valset st,
     reachable REPLICA_BUILDINGS valset st ->
     (loop_guard st = false <-> accepted (val_imgs st) = 95))
  ∧ (forall REPLICA_BUILDINGS valset draws m,
       select_val_samples_for_datasets REPLICA_BUILDINGS valset draws = Returned m ->
       accepted m = 95)
  ∧ (exists valset,
       0 < length valset < 95
       ∧ forall REPLICA_BUILDINGS draws,
           exists st, select_val_samples_for_datasets REPLICA_BUILDINGS valset draws
                      = Spinning st
                      ∧ loop_guard st = true)
  ∧ (exists REPLICA_BUILDINGS valset draws m,
       select_val_samples_for_datasets REPLICA_BUILDINGS valset draws = Returned m).
Proof.
  split; [|split; [|split]].
  - intros RB valset st. apply reachable_guard.
  - intros RB valset draws m Hret.
    pose proof (select_loop_reachable RB valset draws (Curation 0 ∅)
                  (reachable_start RB valset)) as H.
    unfold select_val_samples_for_datasets in Hret. rewrite Hret in H.
    destruct H as (st & Hr & Hg & <-). by apply (reachable_guard RB valset).
  - exists hypersim_pool. split; [simpl; lia|]. intros RB draws.
    destruct (select_loop_spins RB hypersim_pool draws (Curation 0 ∅))
      as (st & Hst & Hacc); try done.
    + unfold barren, hypersim_pool, building_in_taskonomy. simpl.
      by destruct (Py.mem _ RB).
    + cbn [val_imgs]. rewrite sizes_empty. simpl. lia.
    + exists st. split; [done|]. apply Nat.ltb_lt. lia.
  - exists sample_replica_buildings, diverse_pool, diverse_draws.
    pose proof diverse_run_sizes as H.
    destruct (select_val_samples_for_datasets _ _ _) as [m| |st]; [eauto|done|done].
Qed.

(** C6 (the code admits one more): on a pool with a single [frl] Replica
    sample, 16 draws are all accepted, so the Replica bucket holds 16 [frl]
    samples; in general the bucket never holds more than 16 of them. *)
Theorem frl_subquota_admits_sixteen :
  (fun o => match o with
            | Some st => Some (frls st, frl_accepted frl_pool (val_imgs st), sizes (val_imgs st))
            | None => None
            end)
    (spinning_state (select_val_samples_for_datasets sample_replica_buildings frl_pool
                       (replicate 16 0)))
  = Some (16, 16, (0, 16, 0, 0))
  ∧ (forall REPLICA_BUILDINGS valset st,
       reachable REPLICA_BUILDINGS valset st ->
       frl_accepted valset (val_imgs st) <= 16).
Proof.
  split; [vm_compute; reflexivity|].
  intros RB valset st [Hc Hb]%reachable_frl_bound. lia.
Qed.

(** ** Validation logging *)










Section LoggingFacts.

Variables image_size num_positive : nat.
Variable P : Type.
Variable render : string -> positive -> tensor Q -> tensor Z -> tensor bool
                  -> option (pictures P).
Variable valset : list positive.

(** Each of the five keys of a logged example receives one image. *)
Lemma log_pictures_grows dataset img_idx v (all_imgs : gmap string (list (wandb_Image P))) key :
  key ∈ picture_keys dataset ->
  length (dd.get key (log_pictures P dataset img_idx v all_imgs))
  = S (length (dd.get key all_imgs)).
Proof.
  unfold picture_keys, log_pictures. intros Hkey.
  repeat (apply elem_of_cons in Hkey as [-> | Hkey]);
    [..|by apply elem_of_nil in Hkey];
    repeat first [ rewrite get_append_eq | rewrite get_append_ne by (simpl; discriminate) ];
    rewrite length_app; simpl; lia.
Qed.



End LoggingFacts.

(** C8 (as stated) fails: the valid mask of the all-white sample sums to 64,
    not to zero, and the sample is skipped all the same: the mask that is
    summed is [semantic_gt != 0], the valid pixels that carry a label. *)
Lemma skipped_with_nonzero_valid_mask_sum :
  T.count <$> make_valid_mask 8 1 (mask_valid white_example) default_max_pool_size
  = Some 64
  ∧ log_example 8 1 nat numbered_render [labelled_example; white_example] "taskonomy" 1 ∅
    = Some ∅.
Proof. split; vm_compute; reflexivity. Qed.



(** C9 (as stated) fails: with the default flags the validation list does
    not contain [gso]. *)
Lemma gso_not_in_val_datasets :
  "gso" ∉ val_datasets (setup_datasets (Hparams true true false true)).
Proof. simpl. intros H. repeat (apply elem_of_cons in H as [H|H]; [done|]).
  by apply elem_of_nil in H. Qed.

(** C9 (amended): whatever the flags, the validation list is taskonomy,
    replica, hypersim and does not contain [gso] ([gso] is in the training
    list exactly when [use_gso] is set); the visualization loop therefore
    never visits the GSO bucket: its result does not depend on the samples
    curated under [gso]. *)
Theorem val_datasets_without_gso (h : hparams) :
  val_datasets (setup_datasets h) = ["taskonomy"; "replica"; "hypersim"]
  ∧ ("gso" ∉ val_datasets (setup_datasets h))
  ∧ (("gso" ∈ train_datasets (setup_datasets h)) ↔ use_gso h = true)
  ∧ (forall image_size num_positive (P : Type)
            (render : string -> positive -> tensor Q -> tensor Z -> tensor bool
                      -> option (pictures P))
            (valset : list positive) (val_samples : gmap string (list nat))
            (gso_samples : list nat),
       log_validation_example_images image_size num_positive P render valset
         (val_datasets (setup_datasets h)) (<["gso" := gso_samples]> val_samples)
       = log_validation_example_images image_size num_positive P render valset
           (val_datasets (setup_datasets h)) val_samples).
Proof.
  split; [reflexivity|]. split; [|split].
  - simpl. intros H. repeat (apply elem_of_cons in H as [H|H]; [done|]).
    by apply elem_of_nil in H.
  - unfold setup_datasets. cbn [train_datasets].
    destruct h as [[] [] [] []]; cbn [use_taskonomy use_replica use_gso use_hypersim];
      simpl; split; intros H; try done;
      try (repeat (apply elem_of_cons in H as [H|H]; [done|]); by apply elem_of_nil in H);
      repeat first [by apply list_elem_of_here | apply list_elem_of_further].
  - intros. unfold log_validation_example_images. cbn [val_datasets setup_datasets for_each].
    unfold dd.get. by rewrite !lookup_insert_ne by done.
Qed.

(** * Further properties *)

(** ** Dataset lists and scene names *)

(** X1: [train_datasets] holds a dataset name exactly when its flag is set,
    never twice, and always in the order taskonomy, replica, gso, hypersim. *)
Theorem train_datasets_follow_flags (h : hparams) :
  (forall d, d ∈ train_datasets (setup_datasets h)
             <-> (d = "taskonomy" ∧ use_taskonomy h = true)
                 ∨ (d = "replica" ∧ use_replica h = true)
                 ∨ (d = "gso" ∧ use_gso h = true)
                 ∨ (d = "hypersim" ∧ use_hypersim h = true))
  ∧ NoDup (train_datasets (setup_datasets h))
  ∧ sublist (train_datasets (setup_datasets h))
            ["taskonomy"; "replica"; "gso"; "hypersim"].
Proof.
  destruct h as [[] [] [] []]; cbn; (split; [|split]).
  all: try (intros d; rewrite ?elem_of_cons, ?elem_of_nil; intuition congruence).
  all: try (repeat (apply NoDup_cons; split;
                    [rewrite ?elem_of_cons, ?elem_of_nil; intuition discriminate|]);
            apply NoDup_nil_2).
  all: repeat first [ apply sublist_nil | apply sublist_skip | apply sublist_cons ].
Qed.

Section GsoNames.

Lemma split_at_first c s :
  Py.contains c s = true ->
  exists rest, s = Py.item0 (Py.split c s) +:+ String c rest
               ∧ Py.contains c (Py.item0 (Py.split c s)) = false.
Proof.
  induction s as [|a s IH]; [done|]. intros Hcon.
  rewrite item0_split_cons. cbn [Py.contains] in Hcon.
  destruct (Ascii.eqb a c) eqn:E.
  - apply Ascii.eqb_eq in E as ->. by exists s.
  - destruct (IH Hcon) as (rest & Hs & Hc). exists rest. split.
    + change (String a s = String a (Py.item0 (Py.split c s) +:+ String c rest)).
      by f_equal.
    + cbn [Py.contains]. by rewrite E.
Qed.

Lemma item0_split_app c p rest :
  Py.contains c p = false ->
  Py.item0 (Py.split c (p +:+ String c rest)) = p
  ∧ Py.contains c (p +:+ String c rest) = true.
Proof.
  induction p as [|a p IH]; simpl Py.contains.
  - intros _. change (EmptyString +:+ String c rest) with (String c rest).
    rewrite item0_split_cons. cbn [Py.contains]. by rewrite Ascii.eqb_refl.
  - destruct (Ascii.eqb a c) eqn:Hac; [done|]. intros [H1 H2]%IH.
    change (String a p +:+ String c rest) with (String a (p +:+ String c rest)).
    split; [by rewrite item0_split_cons, Hac, H1|].
    cbn [Py.contains]. by rewrite ?Hac.
Qed.

End GsoNames.

(** X2: an identifier is a GSO one exactly when it is the name of a Replica
    building, itself without hyphen, followed by a hyphen and any suffix. *)
Theorem building_in_gso_iff (REPLICA_BUILDINGS : list string) (building : string) :
  building_in_gso REPLICA_BUILDINGS building = true
  <-> exists prefix rest,
        building = prefix +:+ String "-"%char rest
        ∧ Py.contains "-"%char prefix = false
        ∧ prefix ∈ REPLICA_BUILDINGS.
Proof.
  unfold building_in_gso. rewrite andb_true_iff, mem_true. split.
  - intros [(rest & Hs & Hc)%split_at_first Hin]. eauto.
  - intros (prefix & rest & -> & Hc & Hin).
    destruct (item0_split_app "-"%char prefix rest Hc) as [-> ->]. done.
Qed.

(** ** Valid-mask construction: ranks, errors and blocks *)



Section ValidMaskRanks.

Variables image_size num_positive : nat.

Lemma div_nonzero_le a k : 0 < k <= a -> a / k ≠ 0.
Proof. intros H H0. apply Nat.div_small_iff in H0; lia. Qed.

Lemma make_valid_mask_3d m c h w k :
  shape m = [c; h; w] -> 0 < c -> 0 < k <= h -> k <= w -> 0 < image_size ->
  exists v, make_valid_mask image_size num_positive m k = Some v
    ∧ shape v = [1; c; image_size; image_size]
    ∧ forall b ch y x,
        data v [b; ch; y; x]
        = plane_valid (fun yy xx => data m [ch; yy; xx]) k h w image_size y x.
Proof.
  intros Hsh Hc Hk Hw Hs. unfold make_valid_mask.
  rewrite !Hsh.
  rewrite (bool_decide_eq_true_2 (length [c; h; w] = 3)) by done.
  cbn [T.unsqueeze0 shape]. rewrite !Hsh.
  rewrite (bool_decide_eq_false_2 (length [1; c; h; w] = 5)) by done.
  unfold F.max_pool2d, F.interpolate_nearest.
  cbn [mbind option_bind T.map T.unsqueeze0 shape]. rewrite Hsh.
  rewrite bool_decide_eq_true_2
    by (repeat split; [lia|lia|apply div_nonzero_le; lia|apply div_nonzero_le; lia]).
  cbn [mbind option_bind T.map shape].
  rewrite bool_decide_eq_true_2
    by (repeat split; [lia|lia|apply div_nonzero_le; lia|apply div_nonzero_le; lia]).
  cbn [mbind option_bind T.map shape].
  eexists. split; [reflexivity|]. split; [reflexivity|].
  intros b ch y x. reflexivity.
Qed.

Lemma make_valid_mask_5d m bs p c h w k :
  shape m = [bs; p; c; h; w] -> 0 < c -> 0 < k <= h -> k <= w -> 0 < image_size ->
  num_positive ≠ 0 -> (bs * p) mod num_positive = 0 ->
  exists v, make_valid_mask image_size num_positive m k = Some v
    ∧ shape v = [bs * p / num_positive; num_positive; c; image_size; image_size]
    ∧ forall b q ch y x,
        data v [b; q; ch; y; x]
        = plane_valid (fun yy xx => data m [(b * num_positive + q) / p;
                                            (b * num_positive + q) mod p; ch; yy; xx])
            k h w image_size y x.
Proof.
  intros Hsh Hc Hk Hw Hs Hnp Hmod. unfold make_valid_mask.
  rewrite !Hsh.
  rewrite (bool_decide_eq_false_2 (length [bs; p; c; h; w] = 3)) by done.
  rewrite !Hsh.
  rewrite (bool_decide_eq_true_2 (length [bs; p; c; h; w] = 5)) by done.
  unfold T.merge_b_p. rewrite Hsh. cbn [mbind option_bind T.map shape].
  unfold F.max_pool2d, F.interpolate_nearest. cbn [mbind option_bind T.map shape].
  rewrite bool_decide_eq_true_2
    by (repeat split; [lia|lia|apply div_nonzero_le; lia|apply div_nonzero_le; lia]).
  cbn [mbind option_bind T.map shape].
  rewrite bool_decide_eq_true_2
    by (repeat split; [lia|lia|apply div_nonzero_le; lia|apply div_nonzero_le; lia]).
  cbn [mbind option_bind T.map shape].
  unfold T.split_b_p. cbn [T.map shape].
  rewrite bool_decide_eq_true_2 by done.
  eexists. split; [reflexivity|]. split; [reflexivity|].
  intros b q ch y x. reflexivity.
Qed.

End ValidMaskRanks.

(** X4: a single-sample mask (C, H, W) with a non-empty channel axis, as
    the visualization loop passes it, is treated as the batch of one sample:
    the call gives the same result as on the mask with a leading axis of
    size 1, of shape (1, C, image_size, image_size), pooled plane by plane
    and read back through the single-precision resize index. *)
Theorem make_valid_mask_single_sample (image_size num_positive : nat) (mask_float : tensor Q)
    (c h w k : nat) :
  shape mask_float = [c; h; w] -> 0 < c -> 0 < k <= h -> k <= w -> 0 < image_size ->
  exists v, make_valid_mask image_size num_positive mask_float k = Some v
    ∧ make_valid_mask image_size num_positive (T.unsqueeze0 mask_float) k = Some v
    ∧ shape v = [1; c; image_size; image_size]
    ∧ forall b ch y x,
        data v [b; ch; y; x]
        = plane_valid (fun yy xx => data mask_float [ch; yy; xx]) k h w image_size y x.
Proof.
  intros Hsh Hc Hk Hw Hs.
  destruct (make_valid_mask_3d image_size num_positive _ _ _ _ k Hsh Hc Hk Hw Hs)
    as (v & Hv & Hshv & Hd).
  exists v. split; [done|]. split; [|done].
  unfold make_valid_mask in Hv |- *. rewrite Hsh in Hv.
  rewrite (bool_decide_eq_true_2 (length [c; h; w] = 3)) in Hv by done.
  cbn [T.unsqueeze0 shape]. rewrite Hsh.
  rewrite (bool_decide_eq_false_2 (length [1; c; h; w] = 3)) by done.
  exact Hv.
Qed.

Lemma make_valid_mask_single_sample_witness :
  (shape (mask_valid labelled_example) = [1; 8; 8] ∧ 0 < 1 ∧ 0 < 4 <= 8 ∧ 4 <= 8 ∧ 0 < 8)
  ∧ exists v, make_valid_mask 8 1 (mask_valid labelled_example) 4 = Some v
              ∧ shape v = [1; 1; 8; 8].
Proof.
  split; [repeat split; (reflexivity || lia)|].
  destruct (make_valid_mask_single_sample 8 1 (mask_valid labelled_example) 1 8 8 4
              eq_refl) as (v & Hv & _ & Hs & _); [lia..|].
  exists v. split; [exact Hv|exact Hs].
Defined.

(** X5: a 5-D mask (B, P, C, H, W) with a non-empty channel axis is pooled
    view by view.  When
    [num_positive] is the number of views P the result keeps the layout of
    the input; with [num_positive = 1], the value the module sets, the
    views are folded into the batch axis: the result has shape
    (B * P, 1, C, image_size, image_size) and view [q] of sample [b] is
    found at index [b * P + q]. *)
Theorem make_valid_mask_views (image_size : nat) (mask_float : tensor Q)
    (bs p c h w k : nat) :
  shape mask_float = [bs; p; c; h; w] -> 0 < c -> 0 < k <= h -> k <= w ->
  0 < image_size -> 0 < p ->
  (exists v, make_valid_mask image_size p mask_float k = Some v
     ∧ shape v = [bs; p; c; image_size; image_size]
     ∧ forall b q ch y x, q < p ->
         data v [b; q; ch; y; x]
         = plane_valid (fun yy xx => data mask_float [b; q; ch; yy; xx])
             k h w image_size y x)
  ∧ (exists v, make_valid_mask image_size 1 mask_float k = Some v
       ∧ shape v = [bs * p; 1; c; image_size; image_size]
       ∧ forall b q ch y x, q < p ->
           data v [b * p + q; 0; ch; y; x]
           = plane_valid (fun yy xx => data mask_float [b; q; ch; yy; xx])
               k h w image_size y x).
Proof.
  intros Hsh Hc Hk Hw Hs Hp.
  assert (Hdm : forall b q, q < p -> (b * p + q) / p = b ∧ (b * p + q) mod p = q).
  { intros b q Hq. split.
    - rewrite Nat.div_add_l by lia. rewrite Nat.div_small by done. lia.
    - rewrite Nat.add_comm, Nat.Div0.mod_add. by apply Nat.mod_small. }
  split.
  - destruct (make_valid_mask_5d image_size p _ _ _ _ _ _ k Hsh Hc Hk Hw Hs)
      as (v & Hv & Hshv & Hd); [lia|apply Nat.Div0.mod_mul|].
    exists v. split; [done|]. split.
    + rewrite Hshv. by rewrite Nat.div_mul by lia.
    + intros b q ch y x Hq. rewrite Hd.
      by destruct (Hdm b q Hq) as [-> ->].
  - destruct (make_valid_mask_5d image_size 1 _ _ _ _ _ _ k Hsh Hc Hk Hw Hs)
      as (v & Hv & Hshv & Hd); [lia|apply Nat.mod_1_r|].
    exists v. split; [done|]. split.
    + rewrite Hshv. by rewrite Nat.div_1_r.
    + intros b q ch y x Hq. rewrite Hd. rewrite Nat.mul_1_r, Nat.add_0_r.
      by destruct (Hdm b q Hq) as [-> ->].
Qed.

Lemma make_valid_mask_views_witness :
  (shape views_mask = [2; 3; 1; 4; 4] ∧ 0 < 1 ∧ 0 < 2 <= 4 ∧ 2 <= 4 ∧ 0 < 4 ∧ 0 < 3)
  ∧ exists v, make_valid_mask 4 1 views_mask 2 = Some v
              ∧ shape v = [2 * 3; 1; 1; 4; 4].
Proof.
  split; [repeat split; (reflexivity || lia)|].
  destruct (proj2 (make_valid_mask_views 4 views_mask 2 3 1 4 4 2 eq_refl
                     ltac:(lia) ltac:(lia) ltac:(lia) ltac:(lia) ltac:(lia)))
    as (v & Hv & Hs & _).
  exists v. split; [exact Hv|exact Hs].
Defined.



Lemma nearest_index_bound n_in n_out dst :
  n_in ≠ 0 -> F.nearest_index n_in n_out dst < n_in.
Proof. unfold F.nearest_index. lia. Qed.

(** X7: a mask that is 1 everywhere gives a result that is valid
    everywhere, for every pool size that fits into the mask and every
    target resolution. *)
Theorem all_valid_mask_stays_valid (image_size num_positive : nat) (mask_float : tensor Q)
    (n c h w k b ch y x : nat) :
  shape mask_float = [n; c; h; w] ->
  T.all (fun v => Qeq_bool v 1) mask_float = true ->
  0 < k <= h -> k <= w -> 0 < image_size ->
  b < n -> ch < c ->
  valid_at image_size num_positive mask_float k [b; ch; y; x] = true.
Proof.
  intros Hsh Hone Hk Hw Hs Hb Hch.
  assert (Hqh : h / k ≠ 0) by (intros H0; apply Nat.div_small_iff in H0; lia).
  assert (Hqw : w / k ≠ 0) by (intros H0; apply Nat.div_small_iff in H0; lia).
  unfold valid_at.
  destruct (make_valid_mask_4d image_size num_positive _ _ _ _ _ k Hsh
              ltac:(lia) ltac:(lia) Hqh Hqw ltac:(lia)) as (v & -> & _ & Hv).
  rewrite Hv. unfold pooled. apply Qeq_bool_iff.
  set (f := fun p : nat * nat => (1 - data mask_float [b; ch; p.1; p.2])%Q).
  set (i := F.nearest_index (h / k) image_size y).
  set (j := F.nearest_index (w / k) image_size x).
  pose proof (nearest_index_bound (h / k) image_size y Hqh) as Hi.
  pose proof (nearest_index_bound (w / k) image_size x Hqw) as Hj.
  fold i in Hi. fold j in Hj.
  pose proof (maximum_in (f <$> F.window k i j)) as Hin.
  destruct (list_elem_of_fmap_1 f _ _
              (Hin ltac:(intros Hnil%fmap_nil_inv; apply window_not_nil in Hnil; [done|lia])))
    as ([yy xx] & Heq & Hp).
  rewrite Heq. apply elem_of_window in Hp as [Hyy Hxx].
  pose proof (Nat.Div0.mul_div_le h k). pose proof (Nat.Div0.mul_div_le w k).
  assert (Hin1 : (data mask_float [b; ch; yy; xx] == 1)%Q).
  { apply Qeq_bool_iff. apply (all_elim _ _ _ Hone). rewrite Hsh.
    apply elem_of_indices.
    repeat (apply Forall2_cons; split); [done|done| | |apply Forall2_nil_2]; nia. }
  unfold f. simpl. rewrite Hin1. lra.
Qed.

Lemma all_valid_mask_stays_valid_witness :
  (shape ones_mask = [2; 1; 8; 8]
   ∧ T.all (fun v => Qeq_bool v 1) ones_mask = true)
  ∧ valid_at 5 1 ones_mask 3 [1; 0; 4; 2] = true.
Proof.
  split; [split; vm_compute; reflexivity|].
  apply (all_valid_mask_stays_valid 5 1 ones_mask 2 1 8 8 3 1 0 4 2);
    try lia; vm_compute; reflexivity.
Defined.

(** ** Shared step: masks, labels and the edited batch *)

(** A successful call on a batched mask returns the target resolution. *)
Lemma make_valid_mask_4d_shape s np m n c h w k v :
  shape m = [n; c; h; w] -> make_valid_mask s np m k = Some v ->
  shape v = [n; c; s; s].
Proof.
  intros Hsh. unfold make_valid_mask. rewrite !Hsh.
  rewrite (bool_decide_eq_false_2 (length [n; c; h; w] = 3)) by done.
  rewrite !Hsh.
  rewrite (bool_decide_eq_false_2 (length [n; c; h; w] = 5)) by done.
  unfold F.max_pool2d, F.interpolate_nearest. cbn [mbind option_bind T.map shape].
  rewrite Hsh. case_bool_decide; [|done].
  cbn [mbind option_bind T.map shape]. case_bool_decide; [|done].
  cbn [mbind option_bind T.map shape]. by intros [= <-].
Qed.

(** The step on [tiny_batch] returns, and so does a second step on the
    edited batch. *)
Lemma tiny_step_eq train :
  shared_step 8 1 tiny_forward tiny_l1 tiny_nll tiny_batch train = Some tiny_step.
Proof. reflexivity. Qed.

Lemma tiny_step2_eq :
  shared_step 8 1 tiny_forward tiny_l1 tiny_nll (with_semantic tiny_batch tiny_step.2) true
  = Some tiny_step2.
Proof. reflexivity. Qed.

(** X8: for a batch mask of shape (B, 1, H, W) the semantic mask has shape
    (B, S, S), the normal mask has shape (B, 3, S, S), and the three
    channels of the normal mask all equal the semantic mask. *)
Theorem shared_step_masks_agree (image_size num_positive : nat) (batch : positive)
    (bs h w : nat) (valid : tensor bool) :
  shape (mask_valid batch) = [bs; 1; h; w] ->
  make_valid_mask image_size num_positive (mask_valid batch) default_max_pool_size
  = Some valid ->
  shape (T.squeeze1 valid) = [bs; image_size; image_size]
  ∧ shape (T.repeat_interleave_3_1 valid) = [bs; 3; image_size; image_size]
  ∧ forall b ch y x, ch < 3 ->
      data (T.repeat_interleave_3_1 valid) [b; ch; y; x]
      = data (T.squeeze1 valid) [b; y; x].
Proof.
  intros Hsh Hv. pose proof (make_valid_mask_4d_shape _ _ _ _ _ _ _ _ _ Hsh Hv) as Hs.
  unfold T.squeeze1, T.repeat_interleave_3_1. rewrite Hs. cbn [shape data].
  split; [done|]. split; [done|].
  intros b ch y x Hch. by rewrite Nat.div_small.
Qed.

Lemma shared_step_masks_agree_witness :
  (shape (mask_valid tiny_batch) = [1; 1; 8; 8]
   ∧ make_valid_mask 8 1 (mask_valid tiny_batch) default_max_pool_size
     = Some tiny_mask_valid)
  ∧ shape (T.repeat_interleave_3_1 tiny_mask_valid) = [1; 3; 8; 8].
Proof.
  split; [split; reflexivity|].
  exact (proj1 (proj2 (shared_step_masks_agree 8 1 tiny_batch 1 8 8 tiny_mask_valid
                         eq_refl eq_refl))).
Defined.

Lemma wrap64_small z : (- 2 ^ 63 <= z < 2 ^ 63)%Z -> wrap64 z = z.
Proof. intros H. unfold wrap64. rewrite Z.mod_small by lia. lia. Qed.

Lemma write_last_other {A} c (v t : tensor A) j :
  last j ≠ Some c -> data (T.write_last c v t) j = data t j.
Proof. intros H. unfold T.write_last. simpl. by rewrite bool_decide_eq_false_2. Qed.

(** The label of a pixel inside the valid mask that is not pure white. *)
Lemma valid_label semantic mask labels i :
  labels_after_shift semantic mask = Some labels ->
  data mask (T.broadcast_index (shape mask) i) = true ->
  data (white semantic) i = false ->
  (- 2 ^ 63 < data semantic (i ++ [0%nat]) < 2 ^ 63)%Z ->
  data labels i
  = (if (data semantic (i ++ [0%nat]) =? 0) || (data semantic (i ++ [0%nat]) =? -1)
     then -1 else data semantic (i ++ [0%nat]) - 1)%Z.
Proof.
  unfold labels_after_shift.
  destruct (labels_before_shift semantic mask) as [before|] eqn:Hb; [|done].
  intros [= <-] Hm Hw Hv.
  destruct (labels_before_shift_Some _ _ _ Hb) as (_ & _ & _ & Hd).
  unfold shift_labels, T.map. cbn [data]. rewrite Hd, Hm.
  unfold zero_background, T.masked_fill. cbn [data shape T.map].
  rewrite Hw. cbn [T.select_last data Z.b2z].
  set (v := data semantic (i ++ [0])) in *.
  destruct (Z.eqb_spec v (-1)) as [->|Hn1]; [reflexivity|].
  rewrite Z.mul_1_r, (wrap64_small v) by lia.
  destruct (Z.eqb_spec v 0) as [->|Hn0]; [reflexivity|].
  cbn [orb]. apply wrap64_small. lia.
Qed.

(** X9: when [shared_step] returns, at a pixel inside the valid mask that is
    not pure white, with raw label [raw] (any 64-bit value but the least),
    the label written back is [raw - 1], and the pixel is counted by the
    cross entropy, unless [raw] is 0 or -1: then the label is -1 and the
    pixel is ignored. *)
Theorem valid_pixel_label (image_size num_positive : nat)
    (forward : tensor Q -> option predictions)
    (masked_l1_loss : tensor Q -> tensor Q -> tensor bool -> option scalar)
    (nll : list Q -> Z -> Q) (batch : positive) (train : bool)
    (valid : tensor bool) (i : list nat)
    (step_results : gmap string scalar) (semantic' : tensor Z) :
  make_valid_mask image_size num_positive (mask_valid batch) default_max_pool_size
  = Some valid ->
  data (T.squeeze1 valid) (T.broadcast_index (shape (T.squeeze1 valid)) i) = true ->
  data (white (segment_semantic batch)) i = false ->
  (- 2 ^ 63 < data (segment_semantic batch) (i ++ [0%nat]) < 2 ^ 63)%Z ->
  shared_step image_size num_positive forward masked_l1_loss nll batch train
  = Some (step_results, semantic') ->
  let raw := data (segment_semantic batch) (i ++ [0]) in
  let undefined := ((raw =? 0) || (raw =? -1))%Z in
  data semantic' (i ++ [0]) = (if undefined then -1 else raw - 1)%Z
  ∧ exists labels,
      labels_after_shift (segment_semantic batch) (T.squeeze1 valid) = Some labels
      ∧ nn.counted (-1) labels i = negb undefined.
Proof.
  intros Hvalid Hm Hw Hr Hstep raw undefined.
  destruct (shared_step_Some _ _ _ _ _ _ _ _ _ Hstep)
    as (valid' & labels & preds & nl & sl & Hv & Hl & _ & _ & _ & _ & ->).
  rewrite Hvalid in Hv. injection Hv as <-.
  pose proof (valid_label _ _ _ _ Hl Hm Hw Hr) as Hlab.
  split; [by rewrite write_last_read|].
  exists labels. split; [exact Hl|].
  unfold nn.counted. rewrite Hlab. fold raw. fold undefined.
  unfold undefined. destruct (Z.eqb_spec raw 0) as [E0|E0]; [done|].
  destruct (Z.eqb_spec raw (-1)) as [E1|E1]; [done|]. cbn [orb negb].
  apply negb_true_iff. apply Z.eqb_neq. lia.
Qed.

Lemma valid_pixel_label_witness :
  (make_valid_mask 8 1 (mask_valid tiny_batch) default_max_pool_size = Some tiny_mask_valid
   ∧ data (T.squeeze1 tiny_mask_valid)
          (T.broadcast_index (shape (T.squeeze1 tiny_mask_valid)) [0; 1; 2]) = true
   ∧ data (white (segment_semantic tiny_batch)) [0; 1; 2] = false
   ∧ data (segment_semantic tiny_batch) [0; 1; 2; 0] = 3%Z
   ∧ shared_step 8 1 tiny_forward tiny_l1 tiny_nll tiny_batch true = Some tiny_step)
  ∧ data tiny_step.2 [0; 1; 2; 0] = 2%Z.
Proof.
  split; [repeat split; reflexivity|].
  refine (proj1 (valid_pixel_label 8 1 tiny_forward tiny_l1 tiny_nll tiny_batch true
                   tiny_mask_valid [0; 1; 2] tiny_step.1 tiny_step.2
                   eq_refl eq_refl eq_refl _ _)).
  - cbn. lia.
  - rewrite <- surjective_pairing. apply tiny_step_eq.
Defined.

(** X10: [shared_step] edits the label image of the batch in place, channel
    0 only; a second call on the same batch therefore starts from labels
    that are already shifted: when both calls return, a valid pixel of
    class [v >= 1] whose other two channels are not both 255 carries
    [v - 1] after the first call and [v - 2] after the second, while
    channels 1 and 2 and the shape are as in the original batch. *)
Theorem shared_step_twice_shifts_twice (image_size num_positive : nat)
    (forward : tensor Q -> option predictions)
    (masked_l1_loss : tensor Q -> tensor Q -> tensor bool -> option scalar)
    (nll : list Q -> Z -> Q) (batch : positive) (train : bool)
    (valid : tensor bool) (i : list nat)
    (res1 res2 : gmap string scalar) (semantic1 semantic2 : tensor Z) :
  make_valid_mask image_size num_positive (mask_valid batch) default_max_pool_size
  = Some valid ->
  data (T.squeeze1 valid) (T.broadcast_index (shape (T.squeeze1 valid)) i) = true ->
  (data (segment_semantic batch) (i ++ [1%nat]) =? 255)%Z
  && (data (segment_semantic batch) (i ++ [2%nat]) =? 255)%Z = false ->
  (1 <= data (segment_semantic batch) (i ++ [0%nat]) < 2 ^ 63)%Z ->
  shared_step image_size num_positive forward masked_l1_loss nll batch train
  = Some (res1, semantic1) ->
  shared_step image_size num_positive forward masked_l1_loss nll
    (with_semantic batch semantic1) train
  = Some (res2, semantic2) ->
  shape semantic2 = shape (segment_semantic batch)
  ∧ (forall j, last j ≠ Some 0 -> data semantic2 j = data (segment_semantic batch) j)
  ∧ data semantic1 (i ++ [0]) = (data (segment_semantic batch) (i ++ [0%nat]) - 1)%Z
  ∧ data semantic2 (i ++ [0]) = (data (segment_semantic batch) (i ++ [0%nat]) - 2)%Z.
Proof.
  intros Hvalid Hm Hch Hr Hstep1 Hstep2.
  set (sem := segment_semantic batch) in *. set (v := data sem (i ++ [0])) in *.
  assert (Hw : forall s, data s (i ++ [1]) = data sem (i ++ [1]) ->
                         data s (i ++ [2]) = data sem (i ++ [2]) ->
                         data (white s) i = false).
  { intros s H1 H2. unfold white, T.zip_with, T.map, T.select_last. cbn [data].
    rewrite H1, H2, <- andb_assoc, Hch. apply andb_false_r. }
  destruct (shared_step_Some _ _ _ _ _ _ _ _ _ Hstep1)
    as (valid1 & l1 & _ & _ & _ & Hv1 & Hl1 & _ & _ & _ & _ & ->).
  rewrite Hvalid in Hv1. injection Hv1 as <-. fold sem in Hl1.
  destruct (shared_step_Some _ _ _ _ _ _ _ _ _ Hstep2)
    as (valid2 & l2 & _ & _ & _ & Hv2 & Hl2 & _ & _ & _ & _ & ->).
  cbn [mask_valid with_semantic] in Hv2. rewrite Hvalid in Hv2. injection Hv2 as <-.
  cbn [segment_semantic with_semantic] in Hl2 |- *. fold sem in Hl2 |- *.
  set (sem1 := T.write_last 0 l1 sem) in *.
  assert (H1 : data sem1 (i ++ [0]) = (v - 1)%Z).
  { unfold sem1. rewrite write_last_read.
    rewrite (valid_label _ _ _ _ Hl1); [|done|by apply Hw|fold v; lia]. fold v.
    destruct (Z.eqb_spec v 0); [lia|]. destruct (Z.eqb_spec v (-1)); [lia|]. done. }
  split; [reflexivity|]. split; [|split].
  - intros j Hj. unfold sem1. by rewrite !write_last_other.
  - exact H1.
  - rewrite write_last_read.
    rewrite (valid_label _ _ _ _ Hl2); [|done| |rewrite H1; lia].
    + rewrite H1.
      destruct (Z.eqb_spec (v - 1) 0) as [E|E]; cbn [orb]; [lia|].
      destruct (Z.eqb_spec (v - 1) (-1)); lia.
    + apply Hw; unfold sem1; apply write_last_other; rewrite last_snoc; congruence.
Qed.

Lemma shared_step_twice_shifts_twice_witness :
  (make_valid_mask 8 1 (mask_valid tiny_batch) default_max_pool_size = Some tiny_mask_valid
   ∧ data (T.squeeze1 tiny_mask_valid)
          (T.broadcast_index (shape (T.squeeze1 tiny_mask_valid)) [0; 1; 2]) = true
   ∧ data (segment_semantic tiny_batch) [0; 1; 2; 0] = 3%Z
   ∧ shared_step 8 1 tiny_forward tiny_l1 tiny_nll tiny_batch true = Some tiny_step
   ∧ shared_step 8 1 tiny_forward tiny_l1 tiny_nll
       (with_semantic tiny_batch tiny_step.2) true = Some tiny_step2)
  ∧ data tiny_step2.2 [0; 1; 2; 0] = 1%Z.
Proof.
  split; [repeat split; reflexivity|].
  refine (proj2 (proj2 (proj2
    (shared_step_twice_shifts_twice 8 1 tiny_forward tiny_l1 tiny_nll tiny_batch true
       tiny_mask_valid [0; 1; 2] tiny_step.1 tiny_step2.1 tiny_step.2 tiny_step2.2
       eq_refl eq_refl eq_refl _ _ _)))).
  - cbn. lia.
  - rewrite <- surjective_pairing. apply tiny_step_eq.
  - rewrite <- surjective_pairing. apply tiny_step2_eq.
Defined.

(** ** Training and validation steps *)

Section StepFacts.

Variables image_size num_positive : nat.
Variable forward : tensor Q -> option predictions.
Variable masked_l1_loss : tensor Q -> tensor Q -> tensor bool -> option scalar.
Variable nll : list Q -> Z -> Q.
Variable gpus : Z.


End StepFacts.





(** ** Curation: errors, bucket contents and the second loop *)

Section CurationMore.

Variable RB : list string.
Variable valset : list positive.

Lemma select_loop_not_raised draws st :
  valset ≠ [] -> select_loop RB valset draws st ≠ Raised.
Proof.
  intros Hne. revert st. induction draws as [|r draws IH]; intros st; simpl;
    fold (at_guard st); destruct (loop_guard (at_guard st)); try done.
  destruct (loop_body_total RB valset (at_guard st) r Hne) as [st' ->]. apply IH.
Qed.

Lemma verdict_sound b s f k :
  verdict RB b s f = Some k -> bucket_pred RB k b = true.
Proof.
  destruct s as [[[h r] g] t]. unfold verdict. intros H.
  repeat match type of H with
         | context [if ?c && ?d then _ else _] =>
             destruct c eqn:?; cbn [andb] in H; [destruct d eqn:?|]
         end;
    try discriminate; injection H as <-; assumption.
Qed.

Lemma key_inj k k' : key k = key k' -> k = k'.
Proof. by destruct k, k'. Qed.

(** Every accepted index points at a sample of its bucket's dataset. *)
Lemma reachable_sound st :
  reachable RB valset st ->
  forall k idx, idx ∈ dd.get (key k) (val_imgs st) ->
    sample_is valset (bucket_pred RB k) idx = true.
Proof.
  induction 1 as [|st r st' _ IH Hg Hb]; intros k idx; cbn [val_imgs];
    rewrite get_guard_reads.
  - rewrite get_empty. by intros ?%elem_of_nil.
  - destruct (loop_body_effect _ _ _ _ _ Hb) as (idx' & e & _ & He & Hv).
    destruct (verdict RB (building e) (sizes (val_imgs st)) (frls st)) as [k'|] eqn:Hk;
      subst st'; [|apply IH].
    unfold accept. cbn [val_imgs].
    destruct (decide (key k' = key k)) as [->%key_inj|Hne].
    + rewrite get_append_eq. intros [Hin| ->%list_elem_of_singleton]%elem_of_app.
      * by apply IH.
      * unfold sample_is. rewrite He. by apply (verdict_sound _ _ _ _ Hk).
    + rewrite get_append_ne by done. apply IH.
Qed.

(** Every stored index is within the validation set, under every key. *)
Lemma reachable_in_range st :
  reachable RB valset st ->
  forall d idx, idx ∈ dd.get d (val_imgs st) -> idx < length valset.
Proof.
  induction 1 as [|st r st' _ IH Hg Hb]; intros d idx; cbn [val_imgs];
    rewrite get_guard_reads.
  - rewrite get_empty. by intros ?%elem_of_nil.
  - destruct (loop_body_effect _ _ _ _ _ Hb) as (idx' & e & _ & He & Hv).
    destruct (verdict RB (building e) (sizes (val_imgs st)) (frls st)) as [k'|] eqn:Hk;
      subst st'; [|apply IH].
    unfold accept. cbn [val_imgs].
    destruct (decide (key k' = d)) as [<-|Hne].
    + rewrite get_append_eq. intros [Hin| ->%list_elem_of_singleton]%elem_of_app.
      * by apply (IH (key k')).
      * by apply lookup_lt_Some in He.
    + rewrite get_append_ne by done. apply IH.
Qed.

Lemma dom_touch {A} k (m : gmap string (list A)) : dom (dd.touch k m) = {[k]} ∪ dom m.
Proof.
  unfold dd.touch. destruct (m !! k) eqn:E.
  - apply elem_of_dom_2 in E. apply set_eq. intros x.
    rewrite elem_of_union, elem_of_singleton. split; [auto|by intros [->|?]].
  - by rewrite dom_insert_L.
Qed.

Lemma dom_append {A} k x (m : gmap string (list A)) :
  dom (dd.append k x m) = {[k]} ∪ dom m.
Proof. unfold dd.append. by rewrite dom_insert_L. Qed.

Lemma dom_guard_reads m : dom (guard_reads m) = bucket_keys ∪ dom m.
Proof.
  unfold guard_reads, bucket_keys. rewrite !dom_touch. apply set_eq. intros x.
  rewrite !elem_of_union, !elem_of_singleton. tauto.
Qed.

Lemma reachable_dom st :
  reachable RB valset st -> dom (val_imgs st) = bucket_keys.
Proof.
  induction 1 as [|st r st' _ IH Hg Hb]; cbn [val_imgs]; rewrite dom_guard_reads.
  - rewrite dom_empty_L. set_solver.
  - destruct (loop_body_effect _ _ _ _ _ Hb) as (idx' & e & _ & He & Hv).
    destruct (verdict RB (building e) (sizes (val_imgs st)) (frls st)) as [k'|] eqn:Hk;
      subst st'; [|rewrite IH; set_solver].
    unfold accept. cbn [val_imgs]. rewrite dom_append, IH.
    unfold bucket_keys. destruct k'; simpl; set_solver.
Qed.

End CurationMore.

(** X13: the curation raises (the ValueError of [random.randint] on an
    empty range) exactly when the validation set is empty and a draw is
    attempted; on a non-empty validation set it never raises. *)
Theorem select_raises_iff_empty_pool (REPLICA_BUILDINGS : list string)
    (valset : list positive) (draws : list nat) :
  select_val_samples_for_datasets REPLICA_BUILDINGS valset draws = Raised
  <-> valset = [] ∧ draws ≠ [].
Proof.
  split.
  - intros Hr. destruct valset as [|e valset].
    + split; [done|]. intros ->. discriminate Hr.
    + by apply select_loop_not_raised in Hr.
  - intros [-> Hd]. destruct draws as [|r draws]; [done|]. reflexivity.
Qed.

(** X14: the dictionary a run returns has exactly the keys replica,
    taskonomy, hypersim and gso; every index stored under a key is an index
    of the validation set, and the sample at that index satisfies the
    classification predicate of that key's dataset. *)
Theorem curated_samples_belong_to_their_bucket (REPLICA_BUILDINGS : list string)
    (valset : list positive) (draws : list nat) (m : gmap string (list nat)) :
  select_val_samples_for_datasets REPLICA_BUILDINGS valset draws = Returned m ->
  dom m = bucket_keys
  ∧ (forall k idx, idx ∈ dd.get (key k) m ->
       exists e, valset !! idx = Some e
                 ∧ bucket_pred REPLICA_BUILDINGS k (building e) = true)
  ∧ (forall d idx, idx ∈ dd.get d m -> idx < length valset).
Proof.
  intros Hret.
  pose proof (select_loop_reachable REPLICA_BUILDINGS valset draws (Curation 0 ∅)
                (reachable_start REPLICA_BUILDINGS valset)) as H.
  unfold select_val_samples_for_datasets in Hret. rewrite Hret in H.
  destruct H as (st & Hr & _ & <-).
  split; [by apply (reachable_dom REPLICA_BUILDINGS valset)|]. split.
  - intros k idx Hin.
    pose proof (reachable_sound _ _ _ Hr k idx Hin) as Hs. unfold sample_is in Hs.
    destruct (valset !! idx) as [e|]; [eauto|done].
  - by apply (reachable_in_range REPLICA_BUILDINGS valset).
Qed.

Lemma curated_samples_belong_to_their_bucket_witness :
  select_val_samples_for_datasets sample_replica_buildings diverse_pool diverse_draws
  = Returned (returned_imgs (select_val_samples_for_datasets sample_replica_buildings
                               diverse_pool diverse_draws))
  ∧ dom (returned_imgs (select_val_samples_for_datasets sample_replica_buildings
                          diverse_pool diverse_draws))
    = bucket_keys.
Proof.
  split; [vm_compute; reflexivity|].
  apply (curated_samples_belong_to_their_bucket sample_replica_buildings diverse_pool
           diverse_draws).
  vm_compute. reflexivity.
Defined.

Section Curation2Facts.

Variable valset : list positive.

Lemma select_loop2_run draws m :
  length (dd.get "taskonomy" m) <= 20 ->
  20 - length (dd.get "taskonomy" m) <= length draws ->
  exists m',
    select_loop2 valset draws m
    = Returned2 m' (drop (20 - length (dd.get "taskonomy" m)) draws)
    ∧ dd.get "taskonomy" m'
      = dd.get "taskonomy" m
        ++ ((fun r => r mod (length valset + 1))
              <$> take (20 - length (dd.get "taskonomy" m)) draws)
    ∧ dom m' = {["taskonomy"]} ∪ dom m.
Proof.
  revert m. induction draws as [|r draws IH]; intros m Hle Hd; simpl;
    rewrite get_touch;
    destruct (Nat.ltb_spec (length (dd.get "taskonomy" m)) 20) as [Hlt|Hge].
  - simpl in Hd. lia.
  - replace (20 - length (dd.get "taskonomy" m)) with 0 by lia.
    eexists. split; [reflexivity|]. rewrite get_touch, dom_touch.
    split; [by rewrite app_nil_r|done].
  - unfold randint0. destruct (Nat.eqb_spec (length valset + 1) 0); [lia|].
    destruct (IH (dd.append "taskonomy" (r mod (length valset + 1))
                    (dd.touch "taskonomy" m))) as (m' & Hrun & Hget & Hdom).
    + rewrite get_append_eq, get_touch, length_app. simpl. lia.
    + rewrite get_append_eq, get_touch, length_app. simpl in *. lia.
    + rewrite get_append_eq, get_touch, length_app in Hrun, Hget.
      cbn [length] in Hrun, Hget.
      replace (20 - length (dd.get "taskonomy" m))
        with (S (20 - (length (dd.get "taskonomy" m) + 1))) by lia.
      exists m'. split; [exact Hrun|]. split.
      * rewrite Hget. cbn [take fmap list_fmap]. by rewrite <- (assoc_L (++)).
      * rewrite Hdom, dom_append, dom_touch. apply set_eq. intros x.
        rewrite !elem_of_union, !elem_of_singleton. tauto.
  - replace (20 - length (dd.get "taskonomy" m)) with 0 by lia.
    eexists. split; [reflexivity|]. rewrite get_touch, dom_touch.
    split; [by rewrite app_nil_r|done].
Qed.

End Curation2Facts.

(** X15: given at least 20 draws, [select_val_samples_for_datasets2] returns
    after exactly 20 of them, for every validation set (it never raises,
    also on the empty one); the result holds the single key taskonomy with
    the 20 drawn indices in order, each at most [len(valset)]. *)
Theorem select2_takes_twenty_draws (valset : list positive) (draws : list nat) :
  20 <= length draws ->
  exists m,
    select_val_samples_for_datasets2 valset draws = Returned2 m (drop 20 draws)
    ∧ dd.get "taskonomy" m = (fun r => r mod (length valset + 1)) <$> take 20 draws
    ∧ dom m = {["taskonomy"]}
    ∧ length (dd.get "taskonomy" m) = 20
    ∧ forall idx, idx ∈ dd.get "taskonomy" m -> idx <= length valset.
Proof.
  intros Hd.
  destruct (select_loop2_run valset draws ∅) as (m & Hrun & Hget & Hdom);
    [rewrite get_empty; simpl; lia|rewrite get_empty; simpl; lia|].
  rewrite get_empty in Hrun, Hget. simpl in Hrun, Hget.
  exists m. split; [exact Hrun|]. split; [exact Hget|]. split.
  - rewrite Hdom, dom_empty_L. apply set_eq. intros x.
    rewrite elem_of_union, elem_of_empty. tauto.
  - split.
    + rewrite Hget, length_fmap, length_take. lia.
    + intros idx. rewrite Hget. intros (r & -> & _)%list_elem_of_fmap.
      pose proof (Nat.mod_upper_bound r (length valset + 1)). lia.
Qed.

Lemma select2_takes_twenty_draws_witness :
  20 <= length (replicate 25 7)
  ∧ exists m,
      select_val_samples_for_datasets2 hypersim_pool (replicate 25 7)
      = Returned2 m (drop 20 (replicate 25 7))
      ∧ length (dd.get "taskonomy" m) = 20.
Proof.
  split; [vm_compute; lia|].
  destruct (select2_takes_twenty_draws hypersim_pool (replicate 25 7))
    as (m & H1 & _ & _ & H2 & _); [vm_compute; lia|].
  exists m. split; [exact H1|exact H2].
Defined.

(** X16: the indices of [select_val_samples_for_datasets2] are drawn from
    [0 .. len(valset)] inclusive, so for every validation set there is a
    run whose 20 indices all equal [len(valset)], none of which is an index
    of the validation set. *)
Theorem select2_can_pick_missing_sample (valset : list positive) :
  exists draws m,
    select_val_samples_for_datasets2 valset draws = Returned2 m []
    ∧ dd.get "taskonomy" m = replicate 20 (length valset)
    ∧ forall idx, idx ∈ dd.get "taskonomy" m -> valset !! idx = None.
Proof.
  exists (replicate 20 (length valset)).
  destruct (select_loop2_run valset (replicate 20 (length valset)) ∅)
    as (m & Hrun & Hget & _);
    [rewrite get_empty; simpl; lia|rewrite get_empty, length_replicate; simpl; lia|].
  rewrite get_empty in Hrun, Hget. cbn [length Nat.sub app] in Hrun, Hget.
  assert (Hmod : length valset mod (length valset + 1) = length valset)
    by (apply Nat.mod_small; lia).
  rewrite firstn_all2 in Hget by (rewrite length_replicate; lia).
  rewrite fmap_replicate, Hmod in Hget.
  exists m. split.
  - unfold select_val_samples_for_datasets2. rewrite Hrun. reflexivity.
  - split; [exact Hget|].
    intros idx. rewrite Hget. intros [-> _]%elem_of_replicate.
    by apply lookup_ge_None.
Qed.

(** ** Validation logging: balance and composition with the curation *)

Section LoggingMore.

Variables image_size num_positive : nat.
Variable P : Type.
Variable render : string -> positive -> tensor Q -> tensor Z -> tensor bool
                  -> option (pictures P).
Variable valset : list positive.

(** An example of another dataset leaves the five lists of a dataset alone. *)
Lemma log_pictures_other d d' img_idx v (m : gmap string (list (wandb_Image P))) key :
  d ≠ d' -> key ∈ picture_keys d ->
  dd.get key (log_pictures P d' img_idx v m) = dd.get key m.
Proof.
  unfold picture_keys, log_pictures. intros Hne Hkey.
  repeat (apply elem_of_cons in Hkey as [-> | Hkey]);
    [..|by apply elem_of_nil in Hkey];
    by rewrite !get_append_ne by (simpl; intros ?; simplify_eq).
Qed.

Lemma log_example_lengths d d' img_idx (m m' : gmap string (list (wandb_Image P))) :
  log_example image_size num_positive P render valset d' img_idx m = Some m' ->
  exists j, forall key, key ∈ picture_keys d ->
    length (dd.get key m') = length (dd.get key m) + (if decide (d = d') then j else 0).
Proof.
  unfold log_example. destruct (valset !! img_idx) as [e|]; [|done].
  cbn [mbind option_bind]. destruct (make_valid_mask _ _ _ _) as [mv|]; [|done].
  cbn [mbind option_bind]. destruct (T.zero_outside _ _) as [ng|]; [|done].
  cbn [mbind option_bind]. destruct (final_labels _ _ _) as [sg|]; [|done].
  cbn [mbind option_bind]. destruct (_ =? 0).
  - intros [= <-]. exists 0. intros key _. destruct (decide _); lia.
  - destruct (render _ _ _ _ _) as [v|]; [|done]. cbn [mbind option_bind].
    intros [= <-]. exists 1. intros key Hkey. destruct (decide (d = d')) as [<-|Hne].
    + rewrite log_pictures_grows by done. lia.
    + rewrite (log_pictures_other d d') by done. lia.
Qed.

Lemma for_each_log_example_lengths d d' l (m m' : gmap string (list (wandb_Image P))) :
  for_each (log_example image_size num_positive P render valset d') l m = Some m' ->
  exists j, forall key, key ∈ picture_keys d ->
    length (dd.get key m') = length (dd.get key m) + (if decide (d = d') then j else 0).
Proof.
  revert m. induction l as [|idx l IH]; intros m; cbn [for_each].
  - intros [= <-]. exists 0. intros key _. destruct (decide _); lia.
  - destruct (log_example _ _ _ _ _ _ _ _) as [m1|] eqn:H1; [|done].
    cbn [mbind option_bind]. intros H2.
    destruct (log_example_lengths d _ _ _ _ H1) as [j1 Hj1].
    destruct (IH _ H2) as [j2 Hj2]. exists (j1 + j2). intros key Hkey.
    rewrite Hj2, Hj1 by done. destruct (decide _); lia.
Qed.

Lemma log_validation_lengths d ds val_samples (m m' : gmap string (list (wandb_Image P))) :
  for_each (fun dataset all_imgs =>
              for_each (log_example image_size num_positive P render valset dataset)
                       (dd.get dataset val_samples) all_imgs) ds m = Some m' ->
  exists j, (d ∉ ds -> j = 0)
    ∧ forall key, key ∈ picture_keys d ->
        length (dd.get key m') = length (dd.get key m) + j.
Proof.
  revert m. induction ds as [|d' ds IH]; intros m; cbn [for_each].
  - intros [= <-]. exists 0. split; [done|]. intros; lia.
  - destruct (for_each _ (dd.get d' val_samples) m) as [m1|] eqn:H1; [|done].
    cbn [mbind option_bind]. intros H2.
    destruct (for_each_log_example_lengths d _ _ _ _ H1) as [j1 Hj1].
    destruct (IH _ H2) as (j2 & Hz & Hj2).
    exists ((if decide (d = d') then j1 else 0) + j2). split.
    + intros Hnin. apply not_elem_of_cons in Hnin as [Hne Hnin].
      rewrite (Hz Hnin). by destruct (decide (d = d')).
    + intros key Hkey. rewrite Hj2, Hj1 by done. lia.
Qed.



End LoggingMore.

(** X17: in the dictionary the visualization loop returns, the five image
    lists of a dataset (rgb, gt-semantic, pred-semantic, gt-normal,
    pred-normal) all have the same length, and they are empty for a dataset
    outside the list the loop iterates over. *)
Theorem logged_lists_are_balanced (image_size num_positive : nat) (P : Type)
    (render : string -> positive -> tensor Q -> tensor Z -> tensor bool
              -> option (pictures P))
    (valset : list positive) (val_datasets : list string)
    (val_samples : gmap string (list nat))
    (all_imgs : gmap string (list (wandb_Image P))) (dataset : string) :
  log_validation_example_images image_size num_positive P render valset
    val_datasets val_samples = Some all_imgs ->
  exists n,
    (forall key, key ∈ picture_keys dataset -> length (dd.get key all_imgs) = n)
    ∧ (dataset ∉ val_datasets -> n = 0).
Proof.
  unfold log_validation_example_images. intros H.
  destruct (log_validation_lengths _ _ _ _ _ dataset _ _ _ _ H) as (j & Hz & Hj).
  exists j. split; [|done]. intros key Hkey. rewrite (Hj key Hkey), get_empty. done.
Qed.

Lemma logged_lists_are_balanced_witness :
  log_validation_example_images 8 1 nat numbered_render [labelled_example; white_example]
    ["taskonomy"] {["taskonomy" := [0; 1; 0]]}
  = Some (default ∅
            (log_validation_example_images 8 1 nat numbered_render
               [labelled_example; white_example] ["taskonomy"]
               {["taskonomy" := [0; 1; 0]]}))
  ∧ exists n all_imgs,
      log_validation_example_images 8 1 nat numbered_render
        [labelled_example; white_example] ["taskonomy"] {["taskonomy" := [0; 1; 0]]}
      = Some all_imgs
      ∧ forall key, key ∈ picture_keys "taskonomy" -> length (dd.get key all_imgs) = n.
Proof.
  split; [vm_compute; reflexivity|].
  destruct (logged_lists_are_balanced 8 1 nat numbered_render
              [labelled_example; white_example] ["taskonomy"]
              {["taskonomy" := [0; 1; 0]]}
              (default ∅
                 (log_validation_example_images 8 1 nat numbered_render
                    [labelled_example; white_example] ["taskonomy"]
                    {["taskonomy" := [0; 1; 0]]}))
              "taskonomy") as (n & Hn & _); [vm_compute; reflexivity|].
  exists n. eexists. split; [vm_compute; reflexivity|]. exact Hn.
Defined.



(** X19: the GSO decoding [2**8 * semantic[..., 0] + semantic[..., 1]] of two
    byte-valued channels is their 16-bit combination: it lies in
    [0, 65535] and both channels are recovered from it by division and
    remainder by 256. *)
Theorem gso_labels_round_trip (semantic : tensor Z) (i : list nat) :
  let a := data semantic (i ++ [0]) in
  let b := data semantic (i ++ [1]) in
  (0 <= a < 256)%Z -> (0 <= b < 256)%Z ->
  data (decode_labels "gso" semantic) i = (256 * a + b)%Z
  ∧ (data (decode_labels "gso" semantic) i / 256 = a)%Z
  ∧ (data (decode_labels "gso" semantic) i mod 256 = b)%Z
  ∧ (0 <= data (decode_labels "gso" semantic) i < 65536)%Z.
Proof.
  intros a b Ha Hb.
  assert (H : data (decode_labels "gso" semantic) i = (256 * a + b)%Z).
  { unfold decode_labels. rewrite bool_decide_eq_true_2 by done.
    cbn [T.zip_with T.select_last data]. fold a b.
    change (2 ^ 8)%Z with 256%Z.
    rewrite (wrap64_small (256 * a)) by lia. apply wrap64_small. lia. }
  rewrite H. repeat split; try lia.
  - rewrite Z.mul_comm, Z.div_add_l by lia. rewrite Z.div_small by lia. lia.
  - rewrite Z.add_comm, Z.mul_comm, Z.mod_add by lia. apply Z.mod_small. lia.
Qed.

Lemma gso_labels_round_trip_witness :
  ((0 <= data (segment_semantic tiny_batch) [0; 1; 2; 0]%nat < 256)%Z
   ∧ (0 <= data (segment_semantic tiny_batch) [0; 1; 2; 1]%nat < 256)%Z)
  ∧ data (decode_labels "gso" (segment_semantic tiny_batch)) [0; 1; 2] = 768%Z.
Proof.
  split; [split; simpl; lia|].
  exact (proj1 (gso_labels_round_trip (segment_semantic tiny_batch) [0; 1; 2]
                  ltac:(simpl; lia) ltac:(simpl; lia))).
Defined.
